(** * Chord_Kv: a shallow embedding of the node runtime

    The development follows the Python sources module by module:
    [util.py] (ring intervals), [lamport.py] (logical clock),
    [kv_store.py] (last-writer-wins store), [election.py] and the
    election / read / replica paths of [chord_node.py], [gnutella.py]
    (flood search) and [metrics.py] (counters and their snapshot).

    Python [int] is unbounded and is embedded as [Z].  Python [str] is
    embedded as [string]; [<] and [>] on [str] compare code points
    lexicographically, which is what [str_lt] below computes.  A [dict]
    is a [gmap], a [set] a [gset]. *)

From Stdlib Require Import ZArith Lia Floats.
From stdpp Require Import gmap strings list fin_maps.

Local Open Scope Z_scope.

(** ** Python values carried by the store

    Stored values are arbitrary JSON; the code only ever inspects them
    through [is None]. *)
#[warnings="-register-all"] Inductive pyval : Type :=
| PNone
| PBool (b : bool)
| PInt (n : Z)
| PFloat (x : float)
| PStr (s : string)
| PList (items : list pyval)
| PDict (items : list (string * pyval)).

Definition is_none (v : pyval) : bool :=
  match v with PNone => true | _ => false end.

(** ** Comparison of Python strings *)
Module Str.

(** [a < b] on [str]: first differing code point decides, a proper
    prefix is smaller. *)
Fixpoint str_lt (a b : string) : bool :=
  match a, b with
  | EmptyString, EmptyString => false
  | EmptyString, String _ _ => true
  | String _ _, EmptyString => false
  | String c a', String d b' =>
      if (Ascii.N_of_ascii c <? Ascii.N_of_ascii d)%N then true
      else if (Ascii.N_of_ascii d <? Ascii.N_of_ascii c)%N then false
      else str_lt a' b'
  end.

(** [a > b] on [str]. *)
Definition str_gt (a b : string) : bool := str_lt b a.

(** The lexicographic order, as a relation. *)
Inductive lex_lt : string -> string -> Prop :=
| lex_lt_prefix c b : lex_lt EmptyString (String c b)
| lex_lt_head c d a b :
    (Ascii.N_of_ascii c < Ascii.N_of_ascii d)%N -> lex_lt (String c a) (String d b)
| lex_lt_tail c a b : lex_lt a b -> lex_lt (String c a) (String c b).

End Str.

(** ** config.py *)
Module Config.
Definition RING_BITS : Z := 32.
Definition RING_SIZE : Z := 2 ^ RING_BITS.
Definition K_REPLICATION : Z := 3.
Definition GNUTELLA_TTL_DEFAULT : Z := 5.
End Config.

(** ** util.py *)
Module Util.

(** The chained comparison [a < x <= b] is [a < x and x <= b]. *)
Definition in_interval (x a b : Z) (inclusive_right : bool) : bool :=
  if a <? b then
    if inclusive_right then (a <? x) && (x <=? b)
    else (a <? x) && (x <? b)
  else if a >? b then
    if inclusive_right then (x >? a) || (x <=? b)
    else (x >? a) || (x <? b)
  else inclusive_right.

Definition ring_id (x : Z) : Prop := 0 <= x < Config.RING_SIZE.

End Util.

(** ** lamport.py *)
Module Lamport.

Record LamportClock := { time : Z }.

Definition init (initial : Z) : LamportClock := {| time := initial |}.

(** Every method returns the new clock and the value handed back. *)
Definition tick (c : LamportClock) : LamportClock * Z :=
  let t := time c + 1 in ({| time := t |}, t).

Definition update (c : LamportClock) (received_ts : Z) : LamportClock * Z :=
  let t := Z.max (time c) received_ts + 1 in ({| time := t |}, t).

Definition read (c : LamportClock) : LamportClock * Z := (c, time c).

(** What can happen to a clock. *)
Inductive clock_op : Type :=
| Tick
| Update (received_ts : Z)
| Read.

Definition clock_step (c : LamportClock) (o : clock_op)
  : LamportClock :=
  match o with
  | Tick => fst (tick c)
  | Update ts => fst (update c ts)
  | Read => fst (read c)
  end.

Definition clock_run (c : LamportClock) (ops : list clock_op) : LamportClock :=
  foldl clock_step c ops.

End Lamport.

(** ** kv_store.py *)
Module KV.
Import Str.

(** A stored tuple [(value, lamport_ts, writer_id)]. *)
Abbreviation entry := (pyval * Z * string)%type.

Definition _better (old_ts : Z) (old_writer : string)
                   (new_ts : Z) (new_writer : string) : bool :=
  if new_ts >? old_ts then true
  else if (new_ts =? old_ts) && str_gt new_writer old_writer then true
  else false.

Definition put (store : gmap string entry)
               (key : string) (value : pyval) (lamport_ts : Z)
               (writer_id : string) : gmap string entry :=
  match store !! key with
  | None => <[key := (value, lamport_ts, writer_id)]> store
  | Some (old_val, old_ts, old_writer) =>
      if _better old_ts old_writer lamport_ts writer_id
      then <[key := (value, lamport_ts, writer_id)]> store
      else store
  end.

Definition get (store : gmap string entry) (key : string) : option entry :=
  store !! key.

(** The version of an entry is its [(ts, writer)] pair; versions are
    ordered by timestamp, ties broken by the writer id. *)
Abbreviation version := (Z * string)%type.

Definition ver (e : entry) : version := (snd (fst e), snd e).

Definition version_gt (a b : version) : Prop :=
  fst a > fst b \/ (fst a = fst b /\ lex_lt (snd b) (snd a)).

(** A batch of writes to one key, applied left to right. *)
Definition put_all (key : string) (writes : list entry)
                   (store : gmap string entry) : gmap string entry :=
  foldl (fun s e => put s key (fst (fst e)) (snd (fst e)) (snd e)) store writes.

(** What [put] does to the slot of its key. *)
Definition lww_merge (cur : option entry) (e : entry) : option entry :=
  match cur with
  | None => Some e
  | Some (old_val, old_ts, old_writer) =>
      if _better old_ts old_writer (snd (fst e)) (snd e) then Some e else cur
  end.

(** [_better] on whole entries. *)
Definition entry_better (old new : entry) : bool :=
  _better (snd (fst old)) (snd old) (snd (fst new)) (snd new).

(** Writes that carry the same [(ts, writer)] pair carry the same value. *)
Definition version_determines_value (writes : list entry) : Prop :=
  forall a b, a ∈ writes -> b ∈ writes -> ver a = ver b -> a = b.

End KV.

(** ** The [KVStore] object and the dictionaries it hands out

    [self.store] is a reference to a dict; [dump] builds a new dict
    object.  Dict objects live in a heap indexed by locations, so that
    what a caller does to a dumped dict can be told apart from what
    happens to the store's own dict. *)
Module KVStore.
Import KV.

Definition loc : Type := positive.

Record t := { node_id : string; store : loc }.

(** The dict the store currently holds. *)
Definition contents (kv : t) (h : gmap loc (gmap string entry))
  : gmap string entry :=
  default ∅ (h !! store kv).

Definition put (kv : t) (key : string) (value : pyval) (lamport_ts : Z)
               (writer_id : string) (h : gmap loc (gmap string entry))
  : gmap loc (gmap string entry) :=
  <[store kv := KV.put (contents kv h) key value lamport_ts writer_id]> h.

Definition get (kv : t) (key : string) (h : gmap loc (gmap string entry))
  : gmap loc (gmap string entry) * option entry :=
  (h, contents kv h !! key).

(** [dict(self.store)]: a new object with the same items. *)
Definition dump (kv : t) (h : gmap loc (gmap string entry))
  : gmap loc (gmap string entry) * loc :=
  let l := fresh (dom h) in (<[l := contents kv h]> h, l).

(** What a caller can do to a dict it holds a reference to. *)
Definition dict_setitem (l : loc) (key : string) (e : entry)
                        (h : gmap loc (gmap string entry)) :=
  alter (fun d => <[key := e]> d) l h.

Definition dict_delitem (l : loc) (key : string)
                        (h : gmap loc (gmap string entry)) :=
  alter (fun d => delete key d) l h.

Definition dict_clear (l : loc) (h : gmap loc (gmap string entry)) :=
  alter (fun _ => (∅ : gmap string entry)) l h.

(** A client session: calls on the store, and mutations of the dicts
    that earlier [dump] calls returned (addressed by their position in
    the list of dumps so far). *)
Inductive op : Type :=
| OpPut (key : string) (value : pyval) (ts : Z) (writer : string)
| OpGet (key : string)
| OpDump
| OpSetDumped (i : nat) (key : string) (e : entry)
| OpDelDumped (i : nat) (key : string)
| OpClearDumped (i : nat).

Definition step (kv : t) (st : gmap loc (gmap string entry) * list loc) (o : op)
  : gmap loc (gmap string entry) * list loc :=
  let '(h, dumps) := st in
  match o with
  | OpPut key value ts writer => (put kv key value ts writer h, dumps)
  | OpGet key => (fst (get kv key h), dumps)
  | OpDump => let '(h', l) := dump kv h in (h', dumps ++ [l])
  | OpSetDumped i key e =>
      match dumps !! i with
      | Some l => (dict_setitem l key e h, dumps)
      | None => st
      end
  | OpDelDumped i key =>
      match dumps !! i with
      | Some l => (dict_delitem l key h, dumps)
      | None => st
      end
  | OpClearDumped i =>
      match dumps !! i with
      | Some l => (dict_clear l h, dumps)
      | None => st
      end
  end.

Definition run (kv : t) (ops : list op)
               (st : gmap loc (gmap string entry) * list loc) :=
  foldl (step kv) st ops.

(** The store's dict stays allocated, and no dumped dict is the
    store's dict. *)
Definition session_ok (kv : t)
    (st : gmap loc (gmap string entry) * list loc) : Prop :=
  is_Some (fst st !! store kv) /\
  Forall (fun l => l <> store kv) (snd st).

(** A freshly constructed store: one dict object, empty. *)
Definition new (node_id : string) : t * gmap loc (gmap string entry) :=
  ({| node_id := node_id; store := 1%positive |}, {[ 1%positive := ∅ ]}).

End KVStore.

(** ** election.py *)
Module Election.

Record ReplicaElectionState := {
  node_priority : Z;
  current_leader : option Z;
  in_election : bool
}.

Record ElectionManager := {
  mgr_priority : Z;
  per_key : gmap string ReplicaElectionState
}.

Definition new (node_priority : Z) : ElectionManager :=
  {| mgr_priority := node_priority; per_key := ∅ |}.

(** The per-key state is created on first access. *)
Definition _get_state (m : ElectionManager) (key : string)
  : ElectionManager * ReplicaElectionState :=
  match per_key m !! key with
  | Some st => (m, st)
  | None =>
      let st := {| node_priority := mgr_priority m;
                   current_leader := None;
                   in_election := false |} in
      ({| mgr_priority := mgr_priority m;
          per_key := <[key := st]> (per_key m) |}, st)
  end.

(** The state objects are mutated in place: the dict keeps pointing at
    them. *)
Definition store_state (m : ElectionManager) (key : string)
                       (st : ReplicaElectionState) : ElectionManager :=
  {| mgr_priority := mgr_priority m; per_key := <[key := st]> (per_key m) |}.

Definition start_election_local (m : ElectionManager) (key : string)
  : ElectionManager :=
  let '(m1, st) := _get_state m key in
  store_state m1 key {| node_priority := node_priority st;
                        current_leader := current_leader st;
                        in_election := true |}.

Definition set_leader (m : ElectionManager) (key : string)
                      (leader_priority : option Z) : ElectionManager :=
  let '(m1, st) := _get_state m key in
  store_state m1 key {| node_priority := node_priority st;
                        current_leader := leader_priority;
                        in_election := false |}.

Definition get_leader (m : ElectionManager) (key : string)
  : ElectionManager * option Z :=
  let '(m1, st) := _get_state m key in (m1, current_leader st).

End Election.

(** ** chord_node.py: election, read and replica paths

    Remote peers are reached through [rpc], which yields [None] on any
    failure.  The peers' answers are inputs of the model: [ping addr]
    tells whether [/ping] at [addr] answers, [replica_get addr key] is
    the body of the answer of [/replica_get], if any. *)
Module Chord.
Import Str KV Election.

(** The dict [{"id": ..., "addr": ...}]. *)
Record NodeRef := { id : Z; addr : string }.

(** The part of a node the modelled handlers read or write; the ring
    pointers (successor, predecessor, fingers) are left out. *)
Record Node := {
  node_addr : string;
  node_id : Z;
  clock : Lamport.LamportClock;
  kv : gmap string entry;
  election_mgr : ElectionManager;
  g_neighbors : gset string;
  g_seen : gset string
}.

Definition _is_node_alive (self_addr : string) (ping : string -> bool)
                          (addr : string) : bool :=
  if bool_decide (addr = self_addr) then true else ping addr.

(** [sorted(replicas, key=lambda n: n["id"], reverse=True)]: a stable
    sort, so replicas with equal ids keep their relative order. *)
Fixpoint insert_desc (r : NodeRef) (l : list NodeRef) : list NodeRef :=
  match l with
  | [] => [r]
  | x :: xs => if id x <=? id r then r :: x :: xs else x :: insert_desc r xs
  end.

Definition sorted_desc (replicas : list NodeRef) : list NodeRef :=
  foldr insert_desc [] replicas.

(** The probing loop of the election: the first live replica wins. *)
Fixpoint elect (self_addr : string) (ping : string -> bool)
               (m : ElectionManager) (key : string)
               (candidates : list NodeRef) : ElectionManager * option Z :=
  match candidates with
  | [] => (set_leader m key None, None)
  | r :: rest =>
      if _is_node_alive self_addr ping (addr r)
      then (set_leader m key (Some (id r)), Some (id r))
      else elect self_addr ping m key rest
  end.

(** The test guarding the reuse of a cached leader. *)
Definition cached_leader_usable (self_addr : string) (ping : string -> bool)
                                (replicas : list NodeRef)
                                (current : option Z) : bool :=
  match current with
  | None => false
  | Some c =>
      let valid_ids : gset Z := list_to_set (id <$> replicas) in
      if bool_decide (c ∈ valid_ids) then
        match List.find (fun r => id r =? c) replicas with
        | Some leader => _is_node_alive self_addr ping (addr leader)
        | None => false
        end
      else false
  end.

Definition ensure_replica_leader (self_addr : string) (ping : string -> bool)
                                 (m : ElectionManager) (key : string)
                                 (replicas : list NodeRef)
  : ElectionManager * option Z :=
  match replicas with
  | [] => (set_leader m key None, None)
  | _ :: _ =>
      let '(m1, current) := get_leader m key in
      if cached_leader_usable self_addr ping replicas current
      then (m1, current)
      else
        let m2 := start_election_local m1 key in
        elect self_addr ping m2 key (sorted_desc replicas)
  end.

(** [n] calls in a row, with the replica set and the liveness fixed. *)
Fixpoint ensure_replica_leader_n (n : nat) (self_addr : string)
                                 (ping : string -> bool)
                                 (m : ElectionManager) (key : string)
                                 (replicas : list NodeRef)
  : ElectionManager * list (option Z) :=
  match n with
  | O => (m, [])
  | S n' =>
      let '(m1, r) := ensure_replica_leader self_addr ping m key replicas in
      let '(m2, rs) :=
        ensure_replica_leader_n n' self_addr ping m1 key replicas in
      (m2, r :: rs)
  end.

(** The leader the election manager has on record for a key. *)
Definition cached_leader (m : ElectionManager) (key : string) : option Z :=
  match per_key m !! key with
  | Some st => current_leader st
  | None => None
  end.

(** The id the probing loop settles on. *)
Fixpoint first_live (self_addr : string) (ping : string -> bool)
                    (candidates : list NodeRef) : option Z :=
  match candidates with
  | [] => None
  | r :: rest =>
      if _is_node_alive self_addr ping (addr r) then Some (id r)
      else first_live self_addr ping rest
  end.

(** [i] is the greatest id among the live replicas. *)
Definition is_highest_live (self_addr : string) (ping : string -> bool)
                           (replicas : list NodeRef) (i : Z) : Prop :=
  (exists r, r ∈ replicas /\ id r = i /\
             _is_node_alive self_addr ping (addr r) = true) /\
  (forall r, r ∈ replicas ->
             _is_node_alive self_addr ping (addr r) = true -> id r <= i).

Definition none_live (self_addr : string) (ping : string -> bool)
                     (replicas : list NodeRef) : Prop :=
  forall r, r ∈ replicas -> _is_node_alive self_addr ping (addr r) = false.

(** Every element is followed by ids that are not greater. *)
Fixpoint descending (l : list NodeRef) : Prop :=
  match l with
  | [] => True
  | x :: xs => Forall (fun y => id y <= id x) xs /\ descending xs
  end.

(** The outcome of a fresh election. *)
Definition election_outcome (self_addr : string) (ping : string -> bool)
                            (replicas : list NodeRef) (res : option Z) : Prop :=
  match res with
  | Some i => is_highest_live self_addr ping replicas i
  | None => none_live self_addr ping replicas
  end.

(** A state from which every call gives [res]. *)
Definition settled (self_addr : string) (ping : string -> bool)
                   (replicas : list NodeRef) (res : option Z) : Prop :=
  cached_leader_usable self_addr ping replicas res = false ->
  res = first_live self_addr ping (sorted_desc replicas).

(** Body of an answer of [/replica_get]. *)
Inductive replica_get_resp : Type :=
| NotFound
| Found (value : pyval) (ts : Z) (writer_id : string).

(** The [/replica_put] message. *)
Record put_payload := {
  p_key : string; p_value : pyval; p_ts : Z; p_writer_id : string
}.

(** The locals of the fan-out loop of [handle_get]. *)
Record read_state := {
  best_value : pyval;
  best_ts : Z;
  best_writer : string;
  found_any : bool;
  per_replica_vals : gmap string (option entry)
}.

Definition read_init : read_state :=
  {| best_value := PNone; best_ts := -1; best_writer := EmptyString;
     found_any := false; per_replica_vals := ∅ |}.

Definition read_step (replica_get : string -> string -> option replica_get_resp)
                     (key : string) (st : read_state) (r : NodeRef)
  : read_state :=
  match replica_get (addr r) key with
  | None | Some NotFound =>
      {| best_value := best_value st; best_ts := best_ts st;
         best_writer := best_writer st; found_any := found_any st;
         per_replica_vals := <[addr r := None]> (per_replica_vals st) |}
  | Some (Found v ts w) =>
      let vals := <[addr r := Some (v, ts, w)]> (per_replica_vals st) in
      if is_none (best_value st) || (ts >? best_ts st)
         || ((ts =? best_ts st) && str_gt w (best_writer st))
      then {| best_value := v; best_ts := ts; best_writer := w;
              found_any := true; per_replica_vals := vals |}
      else {| best_value := best_value st; best_ts := best_ts st;
              best_writer := best_writer st;
              found_any := true; per_replica_vals := vals |}
  end.

(** Leader first, then the other replicas in replica-set order. *)
Definition query_order (replicas : list NodeRef) (leader_id : option Z)
  : list NodeRef :=
  let leader_node :=
    match leader_id with
    | Some l => List.find (fun r => id r =? l) replicas
    | None => None
    end in
  match leader_node with
  | Some ln =>
      ln :: List.filter (fun r => negb (bool_decide (addr r = addr ln))) replicas
  | None => replicas
  end.

(** The read-repair loop: the [/replica_put] messages it sends. *)
Definition repairs (key : string) (st : read_state) (replicas : list NodeRef)
  : list (string * put_payload) :=
  let repair_payload :=
    {| p_key := key; p_value := best_value st; p_ts := best_ts st;
       p_writer_id := best_writer st |} in
  flat_map (fun r =>
    match per_replica_vals st !! addr r with
    | None | Some None => [(addr r, repair_payload)]
    | Some (Some (v_old, ts_old, w_old)) =>
        if (best_ts st >? ts_old)
           || ((best_ts st =? ts_old) && str_gt (best_writer st) w_old)
        then [(addr r, repair_payload)] else []
    end) replicas.

(** [handle_get], given the replica set that [get_replicas_for_key]
    computed: the election manager afterwards, the value returned
    ([None] is the miss) and the repair messages sent.  The metrics
    update is [record_get] with [hit] true exactly when a value is
    returned. *)
Definition handle_get (self_addr : string) (ping : string -> bool)
                      (replica_get : string -> string -> option replica_get_resp)
                      (m : ElectionManager) (key : string)
                      (replicas : list NodeRef)
  : ElectionManager * option entry * list (string * put_payload) :=
  let '(m1, leader_id) :=
    ensure_replica_leader self_addr ping m key replicas in
  let st := foldl (read_step replica_get key) read_init
                  (query_order replicas leader_id) in
  if negb (found_any st) then (m1, None, [])
  else (m1, Some (best_value st, best_ts st, best_writer st),
        repairs key st replicas).

(** What the fan-out loop has as its best version so far. *)
Definition best_of (st : read_state) : option entry :=
  if found_any st then Some (best_value st, best_ts st, best_writer st)
  else None.

(** The triple a replica reported, if it reported one. *)
Definition found_entry (res : option replica_get_resp) : option entry :=
  match res with
  | Some (Found v ts w) => Some (v, ts, w)
  | _ => None
  end.

(** The triples reported by the replicas of a list, in order. *)
Definition found_entries (replica_get : string -> string -> option replica_get_resp)
                         (key : string) (qs : list NodeRef) : list entry :=
  omap (fun r => found_entry (replica_get (addr r) key)) qs.

(** The sentinel of the loop is sound as long as no reported value is
    [None]. *)
Definition read_inv (st : read_state) : Prop :=
  found_any st = true -> best_value st <> PNone.

(** The body of the answer of [/get]. *)
Inductive get_resp : Type :=
| GetMiss
| GetHit (value : pyval) (ts : Z) (writer_id : string).

Definition get_route (res : option entry) : get_resp :=
  match res with
  | None => GetMiss
  | Some (value, ts, writer_id) => GetHit value ts writer_id
  end.

(** [/replica_put]: the clock first, then the merge. *)
Definition replica_put (n : Node) (key : string) (value : pyval) (ts : Z)
                       (writer_id : string) : Node :=
  let '(c, _) := Lamport.update (clock n) ts in
  {| node_addr := node_addr n; node_id := node_id n;
     clock := c;
     kv := KV.put (kv n) key value ts writer_id;
     election_mgr := election_mgr n;
     g_neighbors := g_neighbors n; g_seen := g_seen n |}.

(** [/replica_get]: a stored tuple is never falsy. *)
Definition replica_get (n : Node) (key : string) : replica_get_resp :=
  match KV.get (kv n) key with
  | None => NotFound
  | Some (value, ts, writer_id) => Found value ts writer_id
  end.

End Chord.

(** ** gnutella.py *)
Module Gnutella.
Import Chord.

(** The JSON body posted to [/g_query]. *)
Record g_query := {
  q_msg_id : string; q_key : string; q_ttl : Z; q_origin : string
}.

(** [{"matches": [...], "stats": {"forwarded": n}}]; a match is the
    pair of the answering address and the key. *)
Record g_result := {
  matches : list (string * string);
  forwarded : Z
}.

(** What a call does that others can observe, in program order. *)
Inductive g_event : Type :=
| MarkSeen (msg_id : string)
| Post (nb : string) (q : g_query).

Definition _have_key (n : Node) (key : string) : bool :=
  match KV.get (kv n) key with Some _ => true | None => false end.

Definition mark_seen (n : Node) (msg_id : string) : Node :=
  {| node_addr := node_addr n; node_id := node_id n; clock := clock n;
     kv := kv n; election_mgr := election_mgr n;
     g_neighbors := g_neighbors n;
     g_seen := {[ msg_id ]} ∪ g_seen n |}.

(** The forwarding loop.  [post nb q] is the decoded answer of the
    neighbour, [None] when the request raised or the status was not
    200. *)
Fixpoint forward_loop (post : string -> g_query -> option g_result)
                      (q : g_query) (origin : string) (nbs : list string)
                      (acc : g_result) (trace : list g_event)
  : g_result * list g_event :=
  match nbs with
  | [] => (acc, trace)
  | nb :: rest =>
      if bool_decide (nb = origin)
      then forward_loop post q origin rest acc trace
      else
        let trace' := trace ++ [Post nb q] in
        match post nb q with
        | Some resp =>
            forward_loop post q origin rest
              {| matches := matches acc ++ matches resp;
                 forwarded := forwarded acc + (1 + forwarded resp) |}
              trace'
        | None => forward_loop post q origin rest acc trace'
        end
  end.

Definition g_query_received (post : string -> g_query -> option g_result)
                            (n : Node) (msg_id key : string) (ttl : Z)
                            (origin : string)
  : Node * g_result * list g_event :=
  if bool_decide (msg_id ∈ g_seen n)
  then (n, {| matches := []; forwarded := 0 |}, [])
  else
    let n1 := mark_seen n msg_id in
    let local := if _have_key n1 key then [(node_addr n1, key)] else [] in
    if ttl <=? 0
    then (n1, {| matches := local; forwarded := 0 |}, [MarkSeen msg_id])
    else
      let q := {| q_msg_id := msg_id; q_key := key; q_ttl := ttl - 1;
                  q_origin := node_addr n1 |} in
      let '(res, trace) :=
        forward_loop post q origin (elements (g_neighbors n1))
                     {| matches := local; forwarded := 0 |}
                     [MarkSeen msg_id] in
      (n1, res, trace).

(** The loop of [g_handle_query]: every neighbour is asked. *)
Fixpoint flood_loop (post : string -> g_query -> option g_result)
                    (q : g_query) (nbs : list string)
                    (acc : g_result) (trace : list g_event)
  : g_result * list g_event :=
  match nbs with
  | [] => (acc, trace)
  | nb :: rest =>
      let trace' := trace ++ [Post nb q] in
      match post nb q with
      | Some resp =>
          flood_loop post q rest
            {| matches := matches acc ++ matches resp;
               forwarded := forwarded acc + (1 + forwarded resp) |}
            trace'
      | None => flood_loop post q rest acc trace'
      end
  end.

(** [g_handle_query]; [msg_id] is the string that [uuid.uuid4()]
    produced.  The forward count of the answer is also what goes to
    [record_gnutella_query]. *)
Definition g_handle_query (post : string -> g_query -> option g_result)
                          (n : Node) (msg_id search_key : string) (ttl : Z)
  : Node * g_result * list g_event :=
  let n1 := mark_seen n msg_id in
  let local :=
    if _have_key n1 search_key then [(node_addr n1, search_key)] else [] in
  if ttl <=? 0
  then (n1, {| matches := local; forwarded := 0 |}, [MarkSeen msg_id])
  else
    let q := {| q_msg_id := msg_id; q_key := search_key; q_ttl := ttl - 1;
                q_origin := node_addr n1 |} in
    let '(res, trace) :=
      flood_loop post q (elements (g_neighbors n1))
                 {| matches := local; forwarded := 0 |}
                 [MarkSeen msg_id] in
    (n1, res, trace).

(** What happens at a node between and around floods: queries arrive,
    the node starts floods of its own, and stabilisation replaces the
    neighbour set. *)
Inductive g_call : Type :=
| QueryReceived (post : string -> g_query -> option g_result)
                (msg_id key : string) (ttl : Z) (origin : string)
| StartQuery (post : string -> g_query -> option g_result)
             (msg_id search_key : string) (ttl : Z)
| SetNeighbors (nbs : gset string).

Definition set_neighbors (n : Node) (nbs : gset string) : Node :=
  {| node_addr := node_addr n; node_id := node_id n; clock := clock n;
     kv := kv n; election_mgr := election_mgr n;
     g_neighbors := nbs; g_seen := g_seen n |}.

Definition g_step (n : Node) (c : g_call) : Node * list g_event :=
  match c with
  | QueryReceived post msg_id key ttl origin =>
      let '(n', _, trace) := g_query_received post n msg_id key ttl origin in
      (n', trace)
  | StartQuery post msg_id search_key ttl =>
      let '(n', _, trace) := g_handle_query post n msg_id search_key ttl in
      (n', trace)
  | SetNeighbors nbs => (set_neighbors n nbs, [])
  end.

(** A freshly minted uuid is one the node has not seen. *)
Definition call_fresh (n : Node) (c : g_call) : Prop :=
  match c with
  | StartQuery _ msg_id _ _ => msg_id ∉ g_seen n
  | _ => True
  end.

Fixpoint uuids_fresh (n : Node) (calls : list g_call) : Prop :=
  match calls with
  | [] => True
  | c :: rest => call_fresh n c /\ uuids_fresh (fst (g_step n c)) rest
  end.

(** The events of a sequence of calls, one list per call. *)
Fixpoint g_run (n : Node) (calls : list g_call) : Node * list (list g_event) :=
  match calls with
  | [] => (n, [])
  | c :: rest =>
      let '(n1, t) := g_step n c in
      let '(n2, ts) := g_run n1 rest in
      (n2, t :: ts)
  end.

(** The message ids a call forwarded. *)
Definition forwarded_ids (trace : list g_event) : list string :=
  flat_map (fun ev => match ev with
                      | Post _ q => [q_msg_id q]
                      | MarkSeen _ => []
                      end) trace.

End Gnutella.

(** ** metrics.py

    Latencies and averages are Python floats.  The float type and its
    arithmetic are parameters of the model: [fdiv_int x n] and
    [idiv_int a b] stand for the quotients [x / n] and [a / b] when the
    divisor is not zero, and are [None] when the conversion to float
    overflows.  What the model fixes is what Python adds on top:
    dividing by zero raises. *)
Module Metrics.

Inductive pyerr : Type := ZeroDivisionError | OverflowError.

Inductive result (A : Type) : Type :=
| Ok (a : A)
| Raise (e : pyerr).
Arguments Ok {A} a.
Arguments Raise {A} e.

Definition bind {A B : Type} (r : result A) (k : A -> result B) : result B :=
  match r with
  | Ok a => k a
  | Raise e => Raise e
  end.

Section WithFloat.
Variable float : Type.
(** The literal [0.0]. *)
Variable fzero : float.
Variable fsub : float -> float -> float.
Variable fdiv_int : float -> Z -> option float.
Variable idiv_int : Z -> Z -> option float.

Record Metrics := {
  node_addr : string;
  total_puts : Z;
  total_gets : Z;
  total_get_hits : Z;
  total_get_misses : Z;
  sum_put_latency : float;
  sum_get_latency : float;
  total_chord_lookups : Z;
  sum_chord_hops : Z;
  total_gnutella_queries : Z;
  sum_gnutella_forwarded : Z;
  start_time : float
}.

Definition lift (o : option float) : result float :=
  match o with Some x => Ok x | None => Raise OverflowError end.

(** [x / n] for a float [x] and an int [n]. *)
Definition truediv_float_int (x : float) (n : Z) : result float :=
  if n =? 0 then Raise ZeroDivisionError else lift (fdiv_int x n).

(** [a / b] for ints. *)
Definition truediv_int_int (a b : Z) : result float :=
  if b =? 0 then Raise ZeroDivisionError else lift (idiv_int a b).

(** Truth value of an int. *)
Definition truthy (n : Z) : bool := negb (n =? 0).

Definition avg_put_lat (m : Metrics) : result float :=
  if truthy (total_puts m)
  then truediv_float_int (sum_put_latency m) (total_puts m) else Ok fzero.

Definition avg_get_lat (m : Metrics) : result float :=
  if truthy (total_gets m)
  then truediv_float_int (sum_get_latency m) (total_gets m) else Ok fzero.

Definition avg_chord_hops (m : Metrics) : result float :=
  if truthy (total_chord_lookups m)
  then truediv_int_int (sum_chord_hops m) (total_chord_lookups m)
  else Ok fzero.

Definition avg_fwd (m : Metrics) : result float :=
  if truthy (total_gnutella_queries m)
  then truediv_int_int (sum_gnutella_forwarded m) (total_gnutella_queries m)
  else Ok fzero.

(** The returned dict, flattened. *)
Record Snapshot := {
  s_node : string;
  uptime_sec : float;
  s_total_puts : Z;
  s_total_gets : Z;
  s_total_get_hits : Z;
  s_total_get_misses : Z;
  avg_put_latency_sec : float;
  avg_get_latency_sec : float;
  s_total_lookups : Z;
  avg_hops : float;
  s_total_queries : Z;
  avg_forwarded_per_query : float
}.

(** [now] is what [time.time()] returns. *)
Definition snapshot (now : float) (m : Metrics) : result Snapshot :=
  let uptime := fsub now (start_time m) in
  bind (avg_put_lat m) (fun apl =>
  bind (avg_get_lat m) (fun agl =>
  bind (avg_chord_hops m) (fun ach =>
  bind (avg_fwd m) (fun af =>
  Ok {| s_node := node_addr m;
        uptime_sec := uptime;
        s_total_puts := total_puts m;
        s_total_gets := total_gets m;
        s_total_get_hits := total_get_hits m;
        s_total_get_misses := total_get_misses m;
        avg_put_latency_sec := apl;
        avg_get_latency_sec := agl;
        s_total_lookups := total_chord_lookups m;
        avg_hops := ach;
        s_total_queries := total_gnutella_queries m;
        avg_forwarded_per_query := af |})))).

End WithFloat.

Arguments node_addr {float} _.
Arguments total_puts {float} _.
Arguments total_gets {float} _.
Arguments total_get_hits {float} _.
Arguments total_get_misses {float} _.
Arguments sum_put_latency {float} _.
Arguments sum_get_latency {float} _.
Arguments total_chord_lookups {float} _.
Arguments sum_chord_hops {float} _.
Arguments total_gnutella_queries {float} _.
Arguments sum_gnutella_forwarded {float} _.
Arguments start_time {float} _.
Arguments avg_put_latency_sec {float} _.
Arguments avg_get_latency_sec {float} _.
Arguments avg_hops {float} _.
Arguments avg_forwarded_per_query {float} _.

End Metrics.

(** ** Concrete nodes and replica sets used in the examples *)
Module Examples.
Import Chord.

Definition node_a : NodeRef := {| id := 1; addr := "10.0.0.1:5000" |}.
Definition node_b : NodeRef := {| id := 2; addr := "10.0.0.2:5000" |}.
Definition replicas_ab : list NodeRef := [node_a; node_b].

(** Only [node_a], the node making the calls, is up. *)
Definition ping_none (a : string) : bool := false.
(** Every peer answers. *)
Definition ping_all (a : string) : bool := true.

(** The election manager of [node_a] after it served a request for
    ["k"] while [node_b] was down. *)
Definition mgr_after_outage : Election.ElectionManager :=
  fst (ensure_replica_leader (addr node_a) ping_none
         (Election.new (id node_a)) "k" replicas_ab).

(** [node_b] holds the newest version of ["k"], whose value is null;
    [node_a] holds an older one. *)
Definition stale_replica_get (a key : string) : option replica_get_resp :=
  if bool_decide (a = addr node_b) then Some (Found PNone 5 "a")
  else Some (Found (PStr "x") 3 "b").

(** [node_a] with two flood neighbours, having already seen ["m1"]. *)
Definition flood_node : Node :=
  {| node_addr := addr node_a; node_id := id node_a;
     clock := Lamport.init 0; kv := ∅;
     election_mgr := Election.new (id node_a);
     g_neighbors := {[ addr node_b; "10.0.0.3:5000" ]};
     g_seen := {[ "m1" ]} |}.

(** No neighbour answers. *)
Definition post_none (nb : string) (q : Gnutella.g_query)
  : option Gnutella.g_result := None.

(** Binary64 arithmetic for the metrics.  [float_of_int] rounds to
    nearest even and fails where Python raises [OverflowError]. *)
Definition float_of_int (n : Z) : option float :=
  let f := SF2Prim (binary_normalize prec emax n 0 false) in
  if PrimFloat.is_infinity f then None else Some f.

Definition fdiv_int (x : float) (n : Z) : option float :=
  match float_of_int n with
  | Some d => Some (PrimFloat.div x d)
  | None => None
  end.

(** Exact for operands below [2^53], which is where the counters live. *)
Definition idiv_int (a b : Z) : option float :=
  match float_of_int a, float_of_int b with
  | Some x, Some y => Some (PrimFloat.div x y)
  | _, _ => None
  end.

(** A node that has served nothing yet. *)
Definition fresh_metrics : Metrics.Metrics float :=
  {| Metrics.node_addr := addr node_a;
     Metrics.total_puts := 0; Metrics.total_gets := 0;
     Metrics.total_get_hits := 0; Metrics.total_get_misses := 0;
     Metrics.sum_put_latency := PrimFloat.zero;
     Metrics.sum_get_latency := PrimFloat.zero;
     Metrics.total_chord_lookups := 0; Metrics.sum_chord_hops := 0;
     Metrics.total_gnutella_queries := 0;
     Metrics.sum_gnutella_forwarded := 0;
     Metrics.start_time := PrimFloat.zero |}.

(** A node that has served three puts in 0.75 seconds and no get. *)
Definition busy_metrics : Metrics.Metrics float :=
  {| Metrics.node_addr := addr node_a;
     Metrics.total_puts := 3; Metrics.total_gets := 0;
     Metrics.total_get_hits := 0; Metrics.total_get_misses := 0;
     Metrics.sum_put_latency := 0.75%float;
     Metrics.sum_get_latency := PrimFloat.zero;
     Metrics.total_chord_lookups := 4; Metrics.sum_chord_hops := 6;
     Metrics.total_gnutella_queries := 0;
     Metrics.sum_gnutella_forwarded := 0;
     Metrics.start_time := PrimFloat.zero |}.

End Examples.

(** ** chord_node.py: the ring

    The ring pointers of a node.  The finger table always has
    [RING_BITS] slots: it is created as [[None] * RING_BITS] and only
    ever assigned by index. *)
Module Ring.
Import Chord.


Record RingState := {
  self : NodeRef;
  predecessor : option NodeRef;
  successor : NodeRef;
  successor_list : list NodeRef;
  finger : list (option NodeRef);
  neighbors : gset string
}.

(** The scan of [closest_preceding_finger_local] over the slots
    [n - 1], ..., [0]. *)
Fixpoint scan_fingers (fingers : list (option NodeRef)) (self_id key_id : Z)
                      (n : nat) : option NodeRef :=
  match n with
  | O => None
  | S i =>
      match fingers !! i with
      | Some (Some f) =>
          if Util.in_interval (id f) self_id key_id false then Some f
          else scan_fingers fingers self_id key_id i
      | _ => scan_fingers fingers self_id key_id i
      end
  end.

Definition closest_preceding_finger_local (st : RingState) (key_id : Z)
  : option NodeRef :=
  scan_fingers (finger st) (id (self st)) key_id (Z.to_nat Config.RING_BITS).

(** [/closest_preceding_or_self]. *)
Definition closest_preceding_or_self (st : RingState) (key_id : Z) : NodeRef :=
  match closest_preceding_finger_local st key_id with
  | Some cp => cp
  | None => self st
  end.

(** The [while True] of [find_successor], cut after [fuel] rounds
    ([None] when they do not suffice).  [cpos addr key_id] is the node
    in the answer of [/closest_preceding_or_self] at [addr], if any.
    The result carries the hop count handed to [record_chord_lookup]. *)
Fixpoint find_successor_loop (fuel : nat)
                             (cpos : string -> Z -> option NodeRef)
                             (st : RingState) (key_id : Z)
                             (n : NodeRef) (hops : Z)
  : option (NodeRef * Z) :=
  match fuel with
  | O => None
  | S fuel' =>
      let hops := hops + 1 in
      let succ := successor st in
      if Util.in_interval key_id (id n) (id succ) true
      then Some (succ, hops)
      else
        match closest_preceding_finger_local st key_id with
        | None =>
            match cpos (addr succ) key_id with
            | None => Some (succ, hops)
            | Some n' => find_successor_loop fuel' cpos st key_id n' hops
            end
        | Some cp =>
            if bool_decide (addr cp = addr n)
            then
              match cpos (addr succ) key_id with
              | None => Some (succ, hops)
              | Some n' => find_successor_loop fuel' cpos st key_id n' hops
              end
            else
              match cpos (addr cp) key_id with
              | None => Some (cp, hops)
              | Some n' => find_successor_loop fuel' cpos st key_id n' hops
              end
        end
  end.

Definition find_successor (fuel : nat) (cpos : string -> Z -> option NodeRef)
                          (st : RingState) (key_id : Z)
  : option (NodeRef * Z) :=
  find_successor_loop fuel cpos st key_id (self st) 0.

(** The walk of [get_replicas_for_key] from the owner.
    [get_successor addr] is the node in the answer of [/get_successor]
    at [addr], if any. *)
Fixpoint replica_walk (fuel : nat) (get_successor : string -> option NodeRef)
                      (replicas : list NodeRef) (current : NodeRef)
  : option (list NodeRef) :=
  match fuel with
  | O => None
  | S fuel' =>
      if Z.of_nat (length replicas) <? Config.K_REPLICATION then
        match get_successor (addr current) with
        | None => Some replicas
        | Some nxt =>
            if bool_decide (Some (addr nxt) = addr <$> last replicas)
            then Some replicas
            else
              let replicas' :=
                if bool_decide (addr nxt ∈ addr <$> replicas) then replicas
                else replicas ++ [nxt] in
              replica_walk fuel' get_successor replicas' nxt
        end
      else Some replicas
  end.

Definition replicas_from_owner (fuel : nat)
                               (get_successor : string -> option NodeRef)
                               (owner : NodeRef) : option (list NodeRef) :=
  replica_walk fuel get_successor [owner] owner.



Definition with_successor (st : RingState) (s : NodeRef) : RingState :=
  {| self := self st; predecessor := predecessor st; successor := s;
     successor_list := successor_list st; finger := finger st;
     neighbors := neighbors st |}.


(** [/notify]. *)
Definition notify (st : RingState) (n : NodeRef) : RingState :=
  let adopt :=
    match predecessor st with
    | None => true
    | Some p => Util.in_interval (id n) (id p) (id (self st)) false
    end in
  if adopt
  then {| self := self st; predecessor := Some n; successor := successor st;
          successor_list := successor_list st; finger := finger st;
          neighbors := neighbors st |}
  else st.

(** The failover loop of [check_successor]. *)
Fixpoint first_answering (ping : string -> bool) (l : list NodeRef)
  : option NodeRef :=
  match l with
  | [] => None
  | n :: rest => if ping (addr n) then Some n else first_answering ping rest
  end.

Definition check_successor (ping : string -> bool) (st : RingState)
  : RingState :=
  if bool_decide (addr (successor st) = addr (self st)) then st
  else if ping (addr (successor st)) then st
  else
    match first_answering ping (drop 1 (successor_list st)) with
    | Some n => with_successor st n
    | None =>
        {| self := self st; predecessor := predecessor st;
           successor := self st; successor_list := [self st];
           finger := finger st; neighbors := neighbors st |}
    end.

Definition check_predecessor (ping : string -> bool) (st : RingState)
  : RingState :=
  match predecessor st with
  | None => st
  | Some p =>
      if ping (addr p) then st
      else {| self := self st; predecessor := None;
              successor := successor st;
              successor_list := successor_list st; finger := finger st;
              neighbors := neighbors st |}
  end.

(** One round of [heartbeat_loop]. *)
Definition heartbeat (ping : string -> bool) (st : RingState) : RingState :=
  check_predecessor ping (check_successor ping st).


End Ring.

(** ** chord_node.py: the write path, [/replica_sync] and anti-entropy *)
Module Replication.
Import KV Election Chord.

Definition with_clock_kv (n : Node) (c : Lamport.LamportClock)
                         (s : gmap string entry) : Node :=
  {| node_addr := node_addr n; node_id := node_id n; clock := c; kv := s;
     election_mgr := election_mgr n;
     g_neighbors := g_neighbors n; g_seen := g_seen n |}.

(** [handle_put], given the replica set that [get_replicas_for_key]
    computed: the node afterwards, the timestamp returned and the
    [/replica_put] messages sent, in order. *)
Definition handle_put (ping : string -> bool) (n : Node)
                      (key : string) (value : pyval) (client_ts : option Z)
                      (writer_id : string) (replicas : list NodeRef)
  : Node * Z * list (string * put_payload) :=
  let '(c, ts) :=
    match client_ts with
    | None => Lamport.tick (clock n)
    | Some cts => Lamport.update (clock n) cts
    end in
  let s := KV.put (kv n) key value ts writer_id in
  let '(m, _) :=
    ensure_replica_leader (node_addr n) ping (election_mgr n) key replicas in
  let payload := {| p_key := key; p_value := value; p_ts := ts;
                    p_writer_id := writer_id |} in
  ({| node_addr := node_addr n; node_id := node_id n; clock := c; kv := s;
      election_mgr := m;
      g_neighbors := g_neighbors n; g_seen := g_seen n |},
   ts,
   (fun r => (addr r, payload)) <$> replicas).

(** [/replica_sync]: the items of the posted object, in the order the
    object yields them. *)
Definition replica_sync (n : Node) (items : list (string * entry)) : Node :=
  foldl (fun n it =>
           replica_put n (fst it) (fst (fst (snd it))) (snd (fst (snd it)))
                         (snd (snd it)))
        n items.


(** What can happen to the store and the clock of a node. *)
Inductive kv_event : Type :=
| EvPut (ping : string -> bool) (key : string) (value : pyval)
        (client_ts : option Z) (writer_id : string)
        (replicas : list NodeRef)
| EvReplicaPut (key : string) (value : pyval) (ts : Z) (writer_id : string)
| EvReplicaSync (items : list (string * entry)).

Definition kv_step (n : Node) (ev : kv_event) : Node :=
  match ev with
  | EvPut ping key value client_ts writer_id replicas =>
      fst (fst (handle_put ping n key value client_ts writer_id replicas))
  | EvReplicaPut key value ts writer_id =>
      replica_put n key value ts writer_id
  | EvReplicaSync items => replica_sync n items
  end.

Definition kv_run (n : Node) (evs : list kv_event) : Node :=
  foldl kv_step n evs.

(** No stored timestamp is ahead of the clock. *)
Definition clock_covers_store (n : Node) : Prop :=
  forall k v ts w, kv n !! k = Some (v, ts, w) -> ts <= Lamport.time (clock n).


End Replication.

(** ** metrics.py: the recorders *)
Module MetricsOps.
Import Metrics.

Section WithFloat.
Variable float : Type.
Variable fadd : float -> float -> float.

Definition record_put (m : Metrics float) (latency_sec : float)
  : Metrics float :=
  {| node_addr := node_addr m;
     total_puts := total_puts m + 1;
     total_gets := total_gets m;
     total_get_hits := total_get_hits m;
     total_get_misses := total_get_misses m;
     sum_put_latency := fadd (sum_put_latency m) latency_sec;
     sum_get_latency := sum_get_latency m;
     total_chord_lookups := total_chord_lookups m;
     sum_chord_hops := sum_chord_hops m;
     total_gnutella_queries := total_gnutella_queries m;
     sum_gnutella_forwarded := sum_gnutella_forwarded m;
     start_time := start_time m |}.

Definition record_get (m : Metrics float) (latency_sec : float) (hit : bool)
  : Metrics float :=
  {| node_addr := node_addr m;
     total_puts := total_puts m;
     total_gets := total_gets m + 1;
     total_get_hits :=
       if hit then total_get_hits m + 1 else total_get_hits m;
     total_get_misses :=
       if hit then total_get_misses m else total_get_misses m + 1;
     sum_put_latency := sum_put_latency m;
     sum_get_latency := fadd (sum_get_latency m) latency_sec;
     total_chord_lookups := total_chord_lookups m;
     sum_chord_hops := sum_chord_hops m;
     total_gnutella_queries := total_gnutella_queries m;
     sum_gnutella_forwarded := sum_gnutella_forwarded m;
     start_time := start_time m |}.

Definition record_chord_lookup (m : Metrics float) (hops : Z)
  : Metrics float :=
  {| node_addr := node_addr m;
     total_puts := total_puts m;
     total_gets := total_gets m;
     total_get_hits := total_get_hits m;
     total_get_misses := total_get_misses m;
     sum_put_latency := sum_put_latency m;
     sum_get_latency := sum_get_latency m;
     total_chord_lookups := total_chord_lookups m + 1;
     sum_chord_hops := sum_chord_hops m + hops;
     total_gnutella_queries := total_gnutella_queries m;
     sum_gnutella_forwarded := sum_gnutella_forwarded m;
     start_time := start_time m |}.

Definition record_gnutella_query (m : Metrics float) (forwarded : Z)
  : Metrics float :=
  {| node_addr := node_addr m;
     total_puts := total_puts m;
     total_gets := total_gets m;
     total_get_hits := total_get_hits m;
     total_get_misses := total_get_misses m;
     sum_put_latency := sum_put_latency m;
     sum_get_latency := sum_get_latency m;
     total_chord_lookups := total_chord_lookups m;
     sum_chord_hops := sum_chord_hops m;
     total_gnutella_queries := total_gnutella_queries m + 1;
     sum_gnutella_forwarded := sum_gnutella_forwarded m + forwarded;
     start_time := start_time m |}.

(** [Metrics(node_addr)], created at time [now]; [fzero] is [0.0]. *)
Definition new (fzero : float) (addr : string) (now : float) : Metrics float :=
  {| node_addr := addr;
     total_puts := 0; total_gets := 0;
     total_get_hits := 0; total_get_misses := 0;
     sum_put_latency := fzero; sum_get_latency := fzero;
     total_chord_lookups := 0; sum_chord_hops := 0;
     total_gnutella_queries := 0; sum_gnutella_forwarded := 0;
     start_time := now |}.

Inductive record_call : Type :=
| RecordPut (latency_sec : float)
| RecordGet (latency_sec : float) (hit : bool)
| RecordChordLookup (hops : Z)
| RecordGnutellaQuery (forwarded : Z).

Definition record (m : Metrics float) (c : record_call) : Metrics float :=
  match c with
  | RecordPut l => record_put m l
  | RecordGet l hit => record_get m l hit
  | RecordChordLookup hops => record_chord_lookup m hops
  | RecordGnutellaQuery fwd => record_gnutella_query m fwd
  end.

Definition is_get (c : record_call) : bool :=
  match c with RecordGet _ _ => true | _ => false end.
Definition is_hit (c : record_call) : bool :=
  match c with RecordGet _ true => true | _ => false end.
Definition is_put (c : record_call) : bool :=
  match c with RecordPut _ => true | _ => false end.
Definition is_lookup (c : record_call) : bool :=
  match c with RecordChordLookup _ => true | _ => false end.
Definition lookup_hops (c : record_call) : Z :=
  match c with RecordChordLookup h => h | _ => 0 end.

End WithFloat.

End MetricsOps.

(** ** election.py: what the manager has on record *)
Module ElectionView.
Import Election.

(** Whether the manager believes an election is under way for a key. *)
Definition election_flag (m : ElectionManager) (key : string) : bool :=
  match per_key m !! key with
  | Some st => in_election st
  | None => false
  end.

End ElectionView.

(** ** Tallies used to state what the recorders and the floods add up *)
Module Tally.

(** How many elements of a list satisfy a test. *)
Definition count {A : Type} (p : A -> bool) (l : list A) : Z :=
  Z.of_nat (length (List.filter p l)).

(** The sum of a measure over a list. *)
Definition total {A : Type} (f : A -> Z) (l : list A) : Z :=
  foldr (fun x acc => f x + acc) 0 l.

End Tally.

(** ** More concrete data for the examples *)
Module MoreExamples.
Import KV Chord.

(** A node at address [a] with id [i] whose store is [s] and whose
    clock reads [t]. *)
Definition node_with (a : string) (i : Z) (t : Z) (s : gmap string entry)
  : Node :=
  {| node_addr := a; node_id := i; clock := Lamport.init t; kv := s;
     election_mgr := Election.new i; g_neighbors := ∅; g_seen := ∅ |}.

Definition store_a : gmap string entry := {[ "k" := (PStr "x", 5, "a") ]}.
Definition store_b : gmap string entry := {[ "k" := (PStr "x", 5, "b") ]}.

(** [node_a] reports an older version of every key than the others. *)
Definition stale_at_a (a key : string) : option replica_get_resp :=
  if bool_decide (a = addr Examples.node_a)
  then Some (Found (PStr "x") 3 "b")
  else Some (Found (PStr "y") 5 "a").

End MoreExamples.

(** * Properties *)

(** ** Python string comparison is the lexicographic order *)
Section StrFacts.
Import Str.

Lemma N_of_ascii_inj c d : Ascii.N_of_ascii c = Ascii.N_of_ascii d -> c = d.
Proof.
  intros H. rewrite <- (Ascii.ascii_N_embedding c), <- (Ascii.ascii_N_embedding d).
  now rewrite H.
Qed.

Lemma str_lt_lex a b : str_lt a b = true <-> lex_lt a b.
Proof.
  revert b. induction a as [|c a IH]; intros [|d b]; simpl.
  - split; [discriminate | inversion 1].
  - split; [constructor | reflexivity].
  - split; [discriminate | inversion 1].
  - destruct (N.ltb_spec (Ascii.N_of_ascii c) (Ascii.N_of_ascii d)) as [Hlt|Hge].
    + split; [intros _; now constructor | reflexivity].
    + destruct (N.ltb_spec (Ascii.N_of_ascii d) (Ascii.N_of_ascii c)) as [Hgt|Hle].
      * split; [discriminate |].
        inversion 1; subst; [lia | lia].
      * assert (c = d) as -> by (apply N_of_ascii_inj; lia).
        rewrite IH. split; [now constructor |].
        inversion 1; subst; [lia | assumption].
Qed.

Lemma str_lt_irrefl a : str_lt a a = false.
Proof.
  induction a as [|c a IH]; simpl; [reflexivity |].
  now rewrite N.ltb_irrefl.
Qed.

Lemma str_lt_trans a b c :
  str_lt a b = true -> str_lt b c = true -> str_lt a c = true.
Proof.
  revert b c. induction a as [|x a IH]; intros [|y b] [|z c]; simpl;
    try discriminate; try reflexivity.
  destruct (N.ltb_spec (Ascii.N_of_ascii x) (Ascii.N_of_ascii y)),
           (N.ltb_spec (Ascii.N_of_ascii y) (Ascii.N_of_ascii x)),
           (N.ltb_spec (Ascii.N_of_ascii y) (Ascii.N_of_ascii z)),
           (N.ltb_spec (Ascii.N_of_ascii z) (Ascii.N_of_ascii y)),
           (N.ltb_spec (Ascii.N_of_ascii x) (Ascii.N_of_ascii z)),
           (N.ltb_spec (Ascii.N_of_ascii z) (Ascii.N_of_ascii x));
    try discriminate; try reflexivity; try lia.
  apply IH.
Qed.

Lemma str_lt_total a b :
  str_lt a b = false -> str_lt b a = false -> a = b.
Proof.
  revert b. induction a as [|x a IH]; intros [|y b]; simpl;
    try discriminate; try reflexivity.
  destruct (N.ltb_spec (Ascii.N_of_ascii x) (Ascii.N_of_ascii y)),
           (N.ltb_spec (Ascii.N_of_ascii y) (Ascii.N_of_ascii x));
    try discriminate; try lia.
  intros H1 H2. assert (x = y) as -> by (apply N_of_ascii_inj; lia).
  f_equal. now apply IH.
Qed.

End StrFacts.

(** ** The version order *)
Section VersionFacts.
Import Str KV.

Lemma _better_version_gt old_ts old_writer new_ts new_writer :
  _better old_ts old_writer new_ts new_writer = true <->
  version_gt (new_ts, new_writer) (old_ts, old_writer).
Proof.
  unfold _better, version_gt, str_gt; simpl.
  destruct (Z.gtb_spec new_ts old_ts) as [Hgt|Hle].
  - split; [intros _; left; lia | reflexivity].
  - destruct (Z.eqb_spec new_ts old_ts) as [Heq|Hne]; simpl.
    + destruct (str_lt old_writer new_writer) eqn:Hs.
      * split; [intros _; right; split; [assumption|now apply str_lt_lex] | reflexivity].
      * split; [discriminate |].
        intros [?|[_ Hl]]; [lia |]. apply str_lt_lex in Hl. congruence.
    + split; [discriminate | intros [?|[? _]]; lia].
Qed.

Lemma _better_irrefl ts w : _better ts w ts w = false.
Proof.
  unfold _better, str_gt. rewrite str_lt_irrefl, Z.eqb_refl.
  destruct (Z.gtb_spec ts ts); [lia | reflexivity].
Qed.

Lemma _better_trans ts1 w1 ts2 w2 ts3 w3 :
  _better ts1 w1 ts2 w2 = true -> _better ts2 w2 ts3 w3 = true ->
  _better ts1 w1 ts3 w3 = true.
Proof.
  unfold _better, str_gt.
  destruct (Z.gtb_spec ts2 ts1), (Z.gtb_spec ts3 ts2), (Z.gtb_spec ts3 ts1),
           (Z.eqb_spec ts2 ts1), (Z.eqb_spec ts3 ts2), (Z.eqb_spec ts3 ts1);
    simpl; try discriminate; try reflexivity; try lia.
  destruct (str_lt w1 w2) eqn:H12, (str_lt w2 w3) eqn:H23;
    try discriminate.
  now rewrite (str_lt_trans _ _ _ H12 H23).
Qed.

Lemma _better_total ts1 w1 ts2 w2 :
  _better ts1 w1 ts2 w2 = false -> _better ts2 w2 ts1 w1 = false ->
  ts1 = ts2 /\ w1 = w2.
Proof.
  unfold _better, str_gt.
  destruct (Z.gtb_spec ts2 ts1), (Z.gtb_spec ts1 ts2),
           (Z.eqb_spec ts2 ts1), (Z.eqb_spec ts1 ts2);
    simpl; try discriminate; try lia.
  destruct (str_lt w1 w2) eqn:H12, (str_lt w2 w1) eqn:H21;
    try discriminate.
  intros _ _. split; [congruence | now apply str_lt_total].
Qed.

End VersionFacts.

(** ** util.py *)

(** C2.  On ring ids, [in_interval] is the open-closed (or open)
    interval when [a < b], the interval wrapping through zero when
    [a > b], and the flag [inclusive_right] itself when [a = b]. *)
Theorem in_interval_cases (x a b : Z) (inclusive_right : bool) :
  Util.ring_id x -> Util.ring_id a -> Util.ring_id b ->
  (a < b ->
   (Util.in_interval x a b inclusive_right = true <->
    if inclusive_right then a < x <= b else a < x < b)) /\
  (a > b ->
   (Util.in_interval x a b inclusive_right = true <->
    if inclusive_right then x > a \/ x <= b else x > a \/ x < b)) /\
  (a = b -> Util.in_interval x a b inclusive_right = inclusive_right).
Proof.
  intros _ _ _. unfold Util.in_interval.
  destruct (Z.ltb_spec a b), (Z.gtb_spec a b);
    (split; [|split]); intros; try lia; try reflexivity;
    destruct inclusive_right;
    rewrite ?andb_true_iff, ?orb_true_iff; lia.
Qed.

Lemma in_interval_cases_witness :
  Util.in_interval 1 4000000000 7 true = true /\
  Util.in_interval 5 5 5 false = false.
Proof.
  assert (R : forall z, 0 <= z <= 4000000000 -> Util.ring_id z).
  { intros z Hz. unfold Util.ring_id, Config.RING_SIZE, Config.RING_BITS. lia. }
  destruct (in_interval_cases 1 4000000000 7 true) as (_ & Hwrap & _);
    try (apply R; lia).
  destruct (in_interval_cases 5 5 5 false) as (_ & _ & Hfull);
    try (apply R; lia).
  split.
  - apply Hwrap; lia.
  - apply Hfull; lia.
Defined.

(** ** lamport.py *)

Lemma clock_step_mono c o : Lamport.time c <= Lamport.time (Lamport.clock_step c o).
Proof. destruct o; simpl; lia. Qed.

Lemma clock_run_mono ops : forall c,
  Lamport.time c <= Lamport.time (Lamport.clock_run c ops).
Proof.
  unfold Lamport.clock_run.
  induction ops as [|o ops IH]; intros c; simpl; [lia |].
  pose proof (clock_step_mono c o).
  pose proof (IH (Lamport.clock_step c o)). lia.
Qed.

(** C5.  [tick] sets the clock to [t + 1] and returns it, [update ts]
    sets it to [max t ts + 1] and returns it; both leave the clock
    strictly greater than before, [update ts] leaves it strictly
    greater than [ts], and no sequence of operations decreases it. *)
Theorem lamport_clock_monotone (c : Lamport.LamportClock) (ts : Z) :
  Lamport.tick c
    = ({| Lamport.time := Lamport.time c + 1 |}, Lamport.time c + 1) /\
  Lamport.update c ts
    = ({| Lamport.time := Z.max (Lamport.time c) ts + 1 |},
       Z.max (Lamport.time c) ts + 1) /\
  Lamport.time c < Lamport.time (fst (Lamport.tick c)) /\
  Lamport.time c < Lamport.time (fst (Lamport.update c ts)) /\
  ts < Lamport.time (fst (Lamport.update c ts)) /\
  (forall ops, Lamport.time c <= Lamport.time (Lamport.clock_run c ops)).
Proof.
  repeat split; simpl; try lia. intros ops. apply clock_run_mono.
Qed.

(** ** kv_store.py *)
Section KVFacts.
Import Str KV.

Lemma entry_better_version_gt (old new : entry) :
  entry_better old new = true <-> version_gt (ver new) (ver old).
Proof.
  destruct old as [[ov ots] ow], new as [[nv nts] nw].
  apply _better_version_gt.
Qed.

Lemma put_lookup (s : gmap string entry) k v ts w :
  put s k v ts w !! k = lww_merge (s !! k) (v, ts, w).
Proof.
  unfold put, lww_merge; simpl.
  destruct (s !! k) as [[[ov ots] ow]|] eqn:Hk.
  - destruct (_better ots ow ts w); [apply lookup_insert_eq | exact Hk].
  - apply lookup_insert_eq.
Qed.

Lemma put_lookup_ne (s : gmap string entry) k k' v ts w :
  k' <> k -> put s k v ts w !! k' = s !! k'.
Proof.
  intros Hne. unfold put.
  destruct (s !! k) as [[[ov ots] ow]|].
  - destruct (_better ots ow ts w); [|reflexivity].
    apply lookup_insert_ne; congruence.
  - apply lookup_insert_ne; congruence.
Qed.

Lemma put_dom (s : gmap string entry) k v ts w :
  dom s ⊆ dom (put s k v ts w).
Proof.
  intros x Hx. apply elem_of_dom in Hx. apply elem_of_dom.
  destruct (decide (x = k)) as [->|Hne].
  - rewrite put_lookup. unfold lww_merge.
    destruct (s !! k) as [[[ov ots] ow]|]; [|eauto].
    destruct (_better _ _ _ _); eauto.
  - now rewrite put_lookup_ne.
Qed.

Lemma put_idempotent (s : gmap string entry) k v ts w :
  put (put s k v ts w) k v ts w = put s k v ts w.
Proof.
  unfold put at 1.
  rewrite put_lookup. unfold lww_merge; simpl.
  destruct (s !! k) as [[[ov ots] ow]|] eqn:Hk.
  - destruct (_better ots ow ts w) eqn:Hb.
    + now rewrite _better_irrefl.
    + now rewrite Hb.
  - now rewrite _better_irrefl.
Qed.

(** C1.  On a key that holds [(v_old, ts_old, w_old)], [put] installs
    the incoming triple when its version is strictly greater and leaves
    the store alone otherwise; on a key that holds nothing it installs
    the incoming triple. *)
Theorem put_replaces_iff_strictly_greater
    (s : gmap string entry) (k : string)
    (v_new : pyval) (ts_new : Z) (w_new : string) :
  (forall v_old ts_old w_old,
     s !! k = Some (v_old, ts_old, w_old) ->
     (version_gt (ts_new, w_new) (ts_old, w_old) ->
      put s k v_new ts_new w_new = <[k := (v_new, ts_new, w_new)]> s) /\
     (~ version_gt (ts_new, w_new) (ts_old, w_old) ->
      put s k v_new ts_new w_new = s)) /\
  (s !! k = None ->
   put s k v_new ts_new w_new = <[k := (v_new, ts_new, w_new)]> s).
Proof.
  split.
  - intros v_old ts_old w_old Hk. unfold put. rewrite Hk.
    destruct (_better ts_old w_old ts_new w_new) eqn:Hb.
    + split; [reflexivity |].
      intros Hn. exfalso. apply Hn. now apply _better_version_gt.
    + split; [|reflexivity].
      intros Hgt. apply _better_version_gt in Hgt. congruence.
  - intros Hk. unfold put. now rewrite Hk.
Qed.

Lemma put_replaces_iff_strictly_greater_witness :
  put {[ "k" := (PStr "old", 4, "a") ]} "k" (PStr "new") 4 "b"
    = <[ "k" := (PStr "new", 4, "b") ]> {[ "k" := (PStr "old", 4, "a") ]} /\
  put {[ "k" := (PStr "old", 4, "a") ]} "k" (PStr "new") 3 "z"
    = {[ "k" := (PStr "old", 4, "a") ]} /\
  put (∅ : gmap string entry) "k" (PStr "new") 0 ""
    = <[ "k" := (PStr "new", 0, "") ]> ∅.
Proof.
  split; [|split].
  - destruct (put_replaces_iff_strictly_greater
                {[ "k" := (PStr "old", 4, "a") ]} "k" (PStr "new") 4 "b")
      as [H _].
    destruct (H (PStr "old") 4 "a" eq_refl) as [Hgt _].
    apply Hgt. right. split; [reflexivity |].
    apply str_lt_lex. reflexivity.
  - destruct (put_replaces_iff_strictly_greater
                {[ "k" := (PStr "old", 4, "a") ]} "k" (PStr "new") 3 "z")
      as [H _].
    destruct (H (PStr "old") 4 "a" eq_refl) as [_ Hle].
    apply Hle. intros [Hgt|[Heq _]]; simpl in *; lia.
  - destruct (put_replaces_iff_strictly_greater
                (∅ : gmap string entry) "k" (PStr "new") 0 "")
      as [_ H].
    apply H. reflexivity.
Defined.

Lemma put_all_lookup k (l : list entry) : forall s : gmap string entry,
  put_all k l s !! k = foldl lww_merge (s !! k) l.
Proof.
  unfold put_all.
  induction l as [|[[v ts] w] l IH]; intros s; simpl; [reflexivity |].
  now rewrite IH, put_lookup.
Qed.

Lemma lww_merge_some (o e : entry) :
  lww_merge (Some o) e = Some (if entry_better o e then e else o).
Proof.
  destruct o as [[ov ots] ow]. unfold lww_merge, entry_better; simpl.
  now destruct (_better ots ow _ _).
Qed.

Lemma entry_better_irrefl (e : entry) : entry_better e e = false.
Proof. apply _better_irrefl. Qed.

Lemma entry_better_trans (a b c : entry) :
  entry_better a b = true -> entry_better b c = true ->
  entry_better a c = true.
Proof. apply _better_trans. Qed.

Lemma entry_better_total (a b : entry) :
  entry_better a b = false -> entry_better b a = false -> ver a = ver b.
Proof.
  intros H1 H2. destruct (_better_total _ _ _ _ H1 H2) as [Ht Hw].
  unfold ver. now rewrite Ht, Hw.
Qed.

Lemma entry_better_ver (a a' b : entry) :
  ver a = ver a' -> entry_better a b = entry_better a' b.
Proof.
  unfold ver, entry_better. intros H. now inversion H.
Qed.

(** Folding the merge over a list keeps a greatest element. *)
Lemma lww_fold_max (l : list entry) : forall o : entry,
  exists e, foldl lww_merge (Some o) l = Some e /\ e ∈ o :: l /\
            forall x, x ∈ o :: l -> entry_better e x = false.
Proof.
  induction l as [|y l IH]; intros o; cbn [foldl].
  - exists o. split; [reflexivity|]. split; [left |].
    intros x Hx. apply list_elem_of_singleton in Hx as ->.
    apply entry_better_irrefl.
  - rewrite lww_merge_some.
    destruct (entry_better o y) eqn:Hoy.
    + destruct (IH y) as (e & Hf & Hin & Hmax).
      exists e. split; [exact Hf|]. split; [now right |].
      intros x Hx. apply elem_of_cons in Hx as [->|Hx]; [|now apply Hmax].
      destruct (entry_better e o) eqn:Heo; [|reflexivity].
      rewrite <- (Hmax y); [|left].
      symmetry. now apply entry_better_trans with o.
    + destruct (IH o) as (e & Hf & Hin & Hmax).
      exists e. split; [exact Hf|]. split.
      { apply elem_of_cons in Hin as [->|Hin]; [left | right; now right]. }
      intros x Hx. apply elem_of_cons in Hx as [->|Hx]; [now apply Hmax; left|].
      apply elem_of_cons in Hx as [->|Hx]; [|now apply Hmax; right].
      destruct (entry_better e y) eqn:Hey; [|reflexivity].
      assert (Heo : entry_better e o = false) by (apply Hmax; left).
      destruct (entry_better o e) eqn:Hoe.
      * rewrite <- Hoy. symmetry. now apply entry_better_trans with e.
      * rewrite <- Hoy, <- Hey. symmetry.
        apply entry_better_ver. now apply entry_better_total.
Qed.

Lemma put_all_max k (l : list entry) (s : gmap string entry) :
  s !! k = None -> l <> [] ->
  exists e, put_all k l s !! k = Some e /\ e ∈ l /\
            forall x, x ∈ l -> entry_better e x = false.
Proof.
  intros Hk Hl. rewrite put_all_lookup, Hk.
  destruct l as [|y l]; [congruence|]. cbn [foldl lww_merge].
  apply lww_fold_max.
Qed.

(** C3, as the code has it.  Applied to a store that holds nothing for
    the key, a non-empty batch of writes leaves one of its writes whose
    [(ts, writer)] pair no other write exceeds; when writes that share
    a pair share the value, every order of application leaves the same
    entry. *)
Theorem put_all_lww_max (k : string) (l : list entry)
                        (s : gmap string entry) :
  s !! k = None -> l <> [] ->
  (exists e, put_all k l s !! k = Some e /\ e ∈ l /\
             forall x, x ∈ l -> ~ version_gt (ver x) (ver e)) /\
  (version_determines_value l ->
   forall l', l' ≡ₚ l -> put_all k l' s !! k = put_all k l s !! k).
Proof.
  intros Hk Hl. split.
  - destruct (put_all_max k l s Hk Hl) as (e & He & Hin & Hmax).
    exists e. split; [exact He|]. split; [exact Hin|].
    intros x Hx Hgt. apply entry_better_version_gt in Hgt.
    rewrite (Hmax x Hx) in Hgt. discriminate.
  - intros Hdet l' Hperm.
    assert (Hl' : l' <> []).
    { intros ->. apply Permutation_nil in Hperm. congruence. }
    destruct (put_all_max k l s Hk Hl) as (e & He & Hin & Hmax).
    destruct (put_all_max k l' s Hk Hl') as (e' & He' & Hin' & Hmax').
    rewrite He, He'. f_equal.
    rewrite Hperm in Hin'. apply Hdet; try assumption.
    apply entry_better_total.
    + apply Hmax'. now rewrite Hperm.
    + now apply Hmax.
Qed.

Lemma put_all_lww_max_witness :
  put_all "k" [(PStr "x", 5, "a"); (PStr "y", 4, "z"); (PStr "x", 5, "b")] ∅
    !! "k"
  = put_all "k" [(PStr "x", 5, "b"); (PStr "x", 5, "a"); (PStr "y", 4, "z")] ∅
    !! "k".
Proof.
  apply (put_all_lww_max "k"
           [(PStr "x", 5, "b"); (PStr "x", 5, "a"); (PStr "y", 4, "z")] ∅).
  - reflexivity.
  - discriminate.
  - intros a b Ha Hb Hv.
    repeat (apply elem_of_cons in Ha as [->|Ha]);
      repeat (apply elem_of_cons in Hb as [->|Hb]);
      try reflexivity; try discriminate;
      try (now apply elem_of_nil in Ha); try (now apply elem_of_nil in Hb).
  - symmetry.
    exact (Permutation_cons_append
             [(PStr "x", 5, "a"); (PStr "y", 4, "z")] (PStr "x", 5, "b")).
Defined.

(** C3 fails as stated: two writes with the same [(ts, writer)] pair
    and different values leave the value that was applied first. *)
Lemma put_all_order_dependent :
  [(PStr "b", 1, "w"); (PStr "a", 1, "w")]
    ≡ₚ [(PStr "a", 1, "w"); (PStr "b", 1, "w")] /\
  put_all "k" [(PStr "a", 1, "w"); (PStr "b", 1, "w")] ∅ !! "k"
    = Some (PStr "a", 1, "w") /\
  put_all "k" [(PStr "b", 1, "w"); (PStr "a", 1, "w")] ∅ !! "k"
    = Some (PStr "b", 1, "w") /\
  put_all "k" [(PStr "a", 1, "w"); (PStr "b", 1, "w")] ∅ !! "k"
    <> put_all "k" [(PStr "b", 1, "w"); (PStr "a", 1, "w")] ∅ !! "k".
Proof.
  split; [apply perm_swap |]. split; [reflexivity |].
  split; [reflexivity |]. vm_compute. discriminate.
Qed.

End KVFacts.

(** ** The [KVStore] object *)
Section KVStoreFacts.
Import KV.

Lemma contents_insert_ne (kv : KVStore.t) l d
    (h : gmap KVStore.loc (gmap string entry)) :
  l <> KVStore.store kv ->
  KVStore.contents kv (<[l := d]> h) = KVStore.contents kv h.
Proof.
  intros Hne. unfold KVStore.contents. now rewrite lookup_insert_ne.
Qed.

Lemma contents_alter_ne (kv : KVStore.t) f l
    (h : gmap KVStore.loc (gmap string entry)) :
  l <> KVStore.store kv ->
  KVStore.contents kv (alter f l h) = KVStore.contents kv h.
Proof.
  intros Hne. unfold KVStore.contents. now rewrite lookup_alter_ne.
Qed.

Lemma contents_put (kv : KVStore.t) key value ts w
    (h : gmap KVStore.loc (gmap string entry)) :
  KVStore.contents kv (KVStore.put kv key value ts w h)
  = KV.put (KVStore.contents kv h) key value ts w.
Proof.
  unfold KVStore.put. unfold KVStore.contents at 1.
  now rewrite lookup_insert_eq.
Qed.

Lemma dump_fresh (kv : KVStore.t)
    (h : gmap KVStore.loc (gmap string entry)) :
  is_Some (h !! KVStore.store kv) ->
  snd (KVStore.dump kv h) <> KVStore.store kv.
Proof.
  intros Hs Heq. simpl in Heq.
  apply elem_of_dom in Hs. rewrite <- Heq in Hs.
  now apply is_fresh in Hs.
Qed.

Lemma step_session (kv : KVStore.t) st o :
  KVStore.session_ok kv st ->
  KVStore.session_ok kv (KVStore.step kv st o) /\
  dom (KVStore.contents kv (fst st))
    ⊆ dom (KVStore.contents kv (fst (KVStore.step kv st o))).
Proof.
  destruct st as [h dumps]. intros [Hs Hd]; simpl in Hs, Hd.
  assert (Hdl : forall i l, dumps !! i = Some l -> l <> KVStore.store kv).
  { intros i l Hl. rewrite Forall_forall in Hd. apply Hd.
    now apply list_elem_of_lookup_2 in Hl. }
  destruct o as [key value ts w|key| |i key e|i key|i]; simpl.
  - split; [split; simpl|].
    + unfold KVStore.put. rewrite lookup_insert_eq. eauto.
    + exact Hd.
    + rewrite contents_put. apply put_dom.
  - split; [split; assumption | reflexivity].
  - split; [split; simpl|].
    + rewrite lookup_insert_ne; [exact Hs|].
      apply (dump_fresh kv h Hs).
    + apply Forall_app. split; [exact Hd|].
      constructor; [apply (dump_fresh kv h Hs) | constructor].
    + rewrite contents_insert_ne; [reflexivity | apply (dump_fresh kv h Hs)].
  - destruct (dumps !! i) as [l|] eqn:Hl; simpl;
      [|split; [split; assumption | reflexivity]].
    split; [split; simpl|].
    + unfold KVStore.dict_setitem. rewrite lookup_alter_ne; [exact Hs|].
      now apply (Hdl i).
    + exact Hd.
    + unfold KVStore.dict_setitem.
      rewrite contents_alter_ne; [reflexivity | now apply (Hdl i)].
  - destruct (dumps !! i) as [l|] eqn:Hl; simpl;
      [|split; [split; assumption | reflexivity]].
    split; [split; simpl|].
    + unfold KVStore.dict_delitem. rewrite lookup_alter_ne; [exact Hs|].
      now apply (Hdl i).
    + exact Hd.
    + unfold KVStore.dict_delitem.
      rewrite contents_alter_ne; [reflexivity | now apply (Hdl i)].
  - destruct (dumps !! i) as [l|] eqn:Hl; simpl;
      [|split; [split; assumption | reflexivity]].
    split; [split; simpl|].
    + unfold KVStore.dict_clear. rewrite lookup_alter_ne; [exact Hs|].
      now apply (Hdl i).
    + exact Hd.
    + unfold KVStore.dict_clear.
      rewrite contents_alter_ne; [reflexivity | now apply (Hdl i)].
Qed.

Lemma run_session (kv : KVStore.t) ops : forall st,
  KVStore.session_ok kv st ->
  dom (KVStore.contents kv (fst st))
    ⊆ dom (KVStore.contents kv (fst (KVStore.run kv ops st))).
Proof.
  unfold KVStore.run.
  induction ops as [|o ops IH]; intros st Hok; simpl; [reflexivity|].
  destruct (step_session kv st o Hok) as [Hok' Hdom].
  etransitivity; [exact Hdom | now apply IH].
Qed.

(** C9.  [get] and [dump] leave the store's dict as it was; the dict
    that [dump] returns is another object with the same items, and
    setting, deleting or clearing items of it does not reach the store;
    [put] leaves the entries of other keys alone and removes no key; the
    key set only grows along any session of calls. *)
Theorem kvstore_reads_pure_writes_framed
    (kv : KVStore.t) (h : gmap KVStore.loc (gmap string entry)) :
  is_Some (h !! KVStore.store kv) ->
  (forall key,
     KVStore.get kv key h = (h, KVStore.contents kv h !! key)) /\
  (forall h' l, KVStore.dump kv h = (h', l) ->
     l <> KVStore.store kv /\
     KVStore.contents kv h' = KVStore.contents kv h /\
     h' !! l = Some (KVStore.contents kv h) /\
     (forall key e,
        KVStore.contents kv (KVStore.dict_setitem l key e h')
        = KVStore.contents kv h) /\
     (forall key,
        KVStore.contents kv (KVStore.dict_delitem l key h')
        = KVStore.contents kv h) /\
     KVStore.contents kv (KVStore.dict_clear l h')
     = KVStore.contents kv h) /\
  (forall k v ts w,
     (forall k', k' <> k ->
        KVStore.contents kv (KVStore.put kv k v ts w h) !! k'
        = KVStore.contents kv h !! k') /\
     dom (KVStore.contents kv h)
       ⊆ dom (KVStore.contents kv (KVStore.put kv k v ts w h))) /\
  (forall ops,
     dom (KVStore.contents kv h)
       ⊆ dom (KVStore.contents kv (fst (KVStore.run kv ops (h, []))))).
Proof.
  intros Hs. split; [|split; [|split]].
  - reflexivity.
  - intros h' l Hd.
    assert (Hl : l <> KVStore.store kv).
    { replace l with (snd (KVStore.dump kv h)) by now rewrite Hd.
      now apply dump_fresh. }
    assert (Hh : h' = <[l := KVStore.contents kv h]> h).
    { unfold KVStore.dump in Hd. now inversion Hd. }
    assert (Hc : KVStore.contents kv h' = KVStore.contents kv h).
    { rewrite Hh. now apply contents_insert_ne. }
    split; [exact Hl|]. split; [exact Hc|].
    split; [rewrite Hh; apply lookup_insert_eq|].
    unfold KVStore.dict_setitem, KVStore.dict_delitem, KVStore.dict_clear.
    repeat split; intros; now rewrite contents_alter_ne.
  - intros k v ts w. rewrite contents_put. split.
    + intros k' Hne. now apply put_lookup_ne.
    + apply put_dom.
  - intros ops. apply (run_session kv ops (h, [])).
    split; [exact Hs | constructor].
Qed.

Lemma kvstore_reads_pure_writes_framed_witness :
  dom (KVStore.contents (fst (KVStore.new "127.0.0.1:5000"))
         (snd (KVStore.new "127.0.0.1:5000")))
    ⊆ dom (KVStore.contents (fst (KVStore.new "127.0.0.1:5000"))
             (fst (KVStore.run (fst (KVStore.new "127.0.0.1:5000"))
                     [KVStore.OpPut "k" (PStr "v") 1 "w"; KVStore.OpDump;
                      KVStore.OpClearDumped 0; KVStore.OpGet "k"]
                     (snd (KVStore.new "127.0.0.1:5000"), [])))).
Proof.
  destruct (kvstore_reads_pure_writes_framed
              (fst (KVStore.new "127.0.0.1:5000"))
              (snd (KVStore.new "127.0.0.1:5000")))
    as (_ & _ & _ & Hrun).
  - simpl. rewrite lookup_singleton_eq. eexists. reflexivity.
  - apply Hrun.
Defined.

End KVStoreFacts.

(** ** chord_node.py: [/replica_put] *)
Section ReplicaPutFacts.
Import KV Chord.

(** C6, as the code has it.  Processing the same [replica_put] a
    second time leaves the store, the election cache, the neighbours
    and the seen set as the first time left them; the Lamport clock is
    updated on every receipt and ends one higher. *)
Theorem replica_put_twice (n : Node) (key : string) (value : pyval)
                          (ts : Z) (writer_id : string) :
  kv (replica_put (replica_put n key value ts writer_id)
                  key value ts writer_id)
    = kv (replica_put n key value ts writer_id) /\
  election_mgr (replica_put (replica_put n key value ts writer_id)
                            key value ts writer_id)
    = election_mgr (replica_put n key value ts writer_id) /\
  g_neighbors (replica_put (replica_put n key value ts writer_id)
                           key value ts writer_id)
    = g_neighbors (replica_put n key value ts writer_id) /\
  g_seen (replica_put (replica_put n key value ts writer_id)
                      key value ts writer_id)
    = g_seen (replica_put n key value ts writer_id) /\
  Lamport.time (clock (replica_put (replica_put n key value ts writer_id)
                                   key value ts writer_id))
    = Lamport.time (clock (replica_put n key value ts writer_id)) + 1.
Proof.
  unfold replica_put; simpl.
  split; [apply put_idempotent|].
  repeat (split; [reflexivity|]). lia.
Qed.

(** C6 fails as stated: the second receipt moves the clock again. *)
Lemma replica_put_twice_differs :
  replica_put
    (replica_put
       {| node_addr := "127.0.0.1:5000"; node_id := 7;
          clock := Lamport.init 0; kv := ∅;
          election_mgr := Election.new 7;
          g_neighbors := ∅; g_seen := ∅ |}
       "k" (PStr "v") 5 "w")
    "k" (PStr "v") 5 "w"
  <> replica_put
       {| node_addr := "127.0.0.1:5000"; node_id := 7;
          clock := Lamport.init 0; kv := ∅;
          election_mgr := Election.new 7;
          g_neighbors := ∅; g_seen := ∅ |}
       "k" (PStr "v") 5 "w".
Proof.
  intros H.
  apply (f_equal (fun n => Lamport.time (clock n))) in H.
  vm_compute in H. discriminate.
Qed.

End ReplicaPutFacts.

(** ** election.py and [ensure_replica_leader] *)
Section ElectionFacts.
Import Election Chord.

Lemma get_leader_cached (m : ElectionManager) key :
  snd (get_leader m key) = cached_leader m key /\
  cached_leader (fst (get_leader m key)) key = cached_leader m key.
Proof.
  unfold get_leader, _get_state, cached_leader.
  destruct (per_key m !! key) as [st|] eqn:Hk; simpl.
  - now rewrite Hk.
  - now rewrite lookup_insert_eq.
Qed.

Lemma set_leader_cached (m : ElectionManager) key l :
  cached_leader (set_leader m key l) key = l.
Proof.
  unfold set_leader, _get_state, store_state, cached_leader.
  destruct (per_key m !! key) as [st|]; simpl; now rewrite lookup_insert_eq.
Qed.

Lemma elect_first_live self ping m key cands :
  elect self ping m key cands
  = (set_leader m key (first_live self ping cands), first_live self ping cands).
Proof.
  induction cands as [|r rest IH]; simpl; [reflexivity|].
  now destruct (_is_node_alive self ping (addr r)).
Qed.

Lemma insert_desc_perm r l : insert_desc r l ≡ₚ r :: l.
Proof.
  induction l as [|x xs IH]; simpl; [reflexivity|].
  destruct (id x <=? id r); [reflexivity|].
  rewrite IH. apply perm_swap.
Qed.

Lemma sorted_desc_perm l : sorted_desc l ≡ₚ l.
Proof.
  unfold sorted_desc. induction l as [|x xs IH]; simpl; [reflexivity|].
  now rewrite insert_desc_perm, IH.
Qed.

Lemma insert_desc_descending r l :
  descending l -> descending (insert_desc r l).
Proof.
  induction l as [|x xs IH]; simpl.
  - intros _. split; [constructor | exact I].
  - intros [Hx Hxs].
    destruct (Z.leb_spec (id x) (id r)) as [Hle|Hgt]; simpl.
    + split; [|split; assumption].
      constructor; [exact Hle|].
      eapply Forall_impl; [exact Hx|]. simpl. intros y Hy. lia.
    + split; [|now apply IH].
      rewrite insert_desc_perm. constructor; [lia | exact Hx].
Qed.

Lemma sorted_desc_descending l : descending (sorted_desc l).
Proof.
  unfold sorted_desc. induction l as [|x xs IH]; simpl; [exact I|].
  now apply insert_desc_descending.
Qed.

Lemma first_live_descending self ping l :
  descending l -> election_outcome self ping l (first_live self ping l).
Proof.
  induction l as [|x xs IH]; simpl.
  - intros _ r Hr. now apply elem_of_nil in Hr.
  - intros [Hx Hxs].
    destruct (_is_node_alive self ping (addr x)) eqn:Hax; simpl.
    + split.
      * exists x. split; [left | split; [reflexivity | exact Hax]].
      * intros r Hr _. apply elem_of_cons in Hr as [->|Hr]; [lia|].
        rewrite Forall_forall in Hx. now apply Hx.
    + specialize (IH Hxs).
      destruct (first_live self ping xs) as [i|]; simpl in *.
      * destruct IH as [(r & Hr & Hi & Ha) Hmax]. split.
        -- exists r. split; [now right | now split].
        -- intros r' Hr' Ha'. apply elem_of_cons in Hr' as [->|Hr'];
             [congruence | now apply Hmax].
      * intros r Hr. apply elem_of_cons in Hr as [->|Hr];
          [exact Hax | now apply IH].
Qed.

Lemma election_outcome_perm self ping l l' res :
  l ≡ₚ l' -> election_outcome self ping l res ->
  election_outcome self ping l' res.
Proof.
  intros Hp. destruct res as [i|]; simpl.
  - intros [(r & Hr & Hi & Ha) Hmax]. split.
    + exists r. split; [now rewrite <- Hp | now split].
    + intros r' Hr'. apply Hmax. now rewrite Hp.
  - intros H r Hr. apply H. now rewrite Hp.
Qed.

Lemma first_live_sorted_desc self ping replicas :
  election_outcome self ping replicas
    (first_live self ping (sorted_desc replicas)).
Proof.
  apply election_outcome_perm with (sorted_desc replicas).
  - apply sorted_desc_perm.
  - apply first_live_descending, sorted_desc_descending.
Qed.

Lemma usable_live_member self ping replicas c :
  cached_leader_usable self ping replicas (Some c) = true ->
  exists r, r ∈ replicas /\ id r = c /\
            _is_node_alive self ping (addr r) = true.
Proof.
  unfold cached_leader_usable.
  destruct (bool_decide _); [|discriminate].
  destruct (List.find _ replicas) as [leader|] eqn:Hf; [|discriminate].
  intros Ha. apply List.find_some in Hf as [Hin Hid].
  exists leader. split; [now apply list_elem_of_In|].
  split; [now apply Z.eqb_eq | exact Ha].
Qed.

(** One call, for a replica set that is not empty: the answer is the
    cached leader when that one passes the reuse test and the outcome
    of the probing loop otherwise, and it is what the cache holds
    afterwards. *)
Lemma ensure_replica_leader_call self ping m key replicas :
  replicas <> [] ->
  snd (ensure_replica_leader self ping m key replicas)
  = (if cached_leader_usable self ping replicas (cached_leader m key)
     then cached_leader m key
     else first_live self ping (sorted_desc replicas)) /\
  cached_leader (fst (ensure_replica_leader self ping m key replicas)) key
  = snd (ensure_replica_leader self ping m key replicas).
Proof.
  intros Hne. destruct replicas as [|r0 rs]; [congruence|].
  unfold ensure_replica_leader.
  destruct (get_leader_cached m key) as [Hs Hf].
  destruct (get_leader m key) as [m1 current]; simpl in Hs, Hf.
  subst current.
  destruct (cached_leader_usable self ping (r0 :: rs) (cached_leader m key)).
  - simpl. split; [reflexivity | exact Hf].
  - rewrite elect_first_live. simpl.
    split; [reflexivity | apply set_leader_cached].
Qed.

Lemma ensure_replica_leader_settled self ping m key replicas res :
  replicas <> [] ->
  cached_leader m key = res -> settled self ping replicas res ->
  snd (ensure_replica_leader self ping m key replicas) = res /\
  cached_leader (fst (ensure_replica_leader self ping m key replicas)) key
  = res.
Proof.
  intros Hne Hc Hs.
  destruct (ensure_replica_leader_call self ping m key replicas Hne)
    as [Hr Hc'].
  rewrite Hc in Hr.
  assert (snd (ensure_replica_leader self ping m key replicas) = res) as E.
  { rewrite Hr.
    destruct (cached_leader_usable self ping replicas res) eqn:Hu;
      [reflexivity | symmetry; now apply Hs]. }
  split; [exact E | now rewrite Hc'].
Qed.

Lemma ensure_replica_leader_n_settled self ping key replicas res n :
  replicas <> [] -> settled self ping replicas res ->
  forall m, cached_leader m key = res ->
  snd (ensure_replica_leader_n n self ping m key replicas)
  = replicate n res.
Proof.
  intros Hne Hs. induction n as [|n IH]; intros m Hc; simpl; [reflexivity|].
  destruct (ensure_replica_leader_settled self ping m key replicas res
              Hne Hc Hs) as [Hr Hc'].
  destruct (ensure_replica_leader self ping m key replicas) as [m1 r];
    simpl in Hr, Hc'.
  specialize (IH m1 Hc').
  destruct (ensure_replica_leader_n n self ping m1 key replicas) as [m2 rs];
    simpl in IH |- *.
  now rewrite Hr, IH.
Qed.

(** C8, as the code has it.  With the replica set and the liveness
    fixed, every further call returns what the first call returned.
    That answer is the cached leader when the cache names a replica
    that passes the liveness probe, and the highest-id live replica
    when the cache names no live replica of the set.  When no replica
    is live the call returns none and leaves no leader cached. *)
Theorem ensure_replica_leader_stable
    (self : string) (ping : string -> bool) (m : ElectionManager)
    (key : string) (replicas : list NodeRef) :
  replicas <> [] ->
  (forall n,
     snd (ensure_replica_leader_n n self ping
            (fst (ensure_replica_leader self ping m key replicas))
            key replicas)
     = replicate n (snd (ensure_replica_leader self ping m key replicas))) /\
  (cached_leader_usable self ping replicas (cached_leader m key) = true ->
   snd (ensure_replica_leader self ping m key replicas)
   = cached_leader m key) /\
  ((forall c r, cached_leader m key = Some c -> r ∈ replicas -> id r = c ->
                _is_node_alive self ping (addr r) = false) ->
   election_outcome self ping replicas
     (snd (ensure_replica_leader self ping m key replicas))) /\
  (none_live self ping replicas ->
   snd (ensure_replica_leader self ping m key replicas) = None /\
   cached_leader (fst (ensure_replica_leader self ping m key replicas)) key
   = None).
Proof.
  intros Hne.
  destruct (ensure_replica_leader_call self ping m key replicas Hne)
    as [Hr Hc].
  assert (Hdead :
    (forall c r, cached_leader m key = Some c -> r ∈ replicas -> id r = c ->
                 _is_node_alive self ping (addr r) = false) ->
    cached_leader_usable self ping replicas (cached_leader m key) = false).
  { intros H.
    destruct (cached_leader m key) as [c|] eqn:Hcl; [|reflexivity].
    destruct (cached_leader_usable self ping replicas (Some c)) eqn:Hu;
      [|reflexivity].
    apply usable_live_member in Hu as (r & Hin & Hid & Ha).
    rewrite (H c r eq_refl Hin Hid) in Ha. discriminate. }
  split; [|split; [|split]].
  - intros n.
    apply ensure_replica_leader_n_settled; [exact Hne | | exact Hc].
    unfold settled. rewrite Hr.
    destruct (cached_leader_usable self ping replicas (cached_leader m key))
      eqn:Hu; [congruence | reflexivity].
  - intros Hu. now rewrite Hr, Hu.
  - intros H. rewrite Hr, (Hdead H). apply first_live_sorted_desc.
  - intros Hnone.
    assert (Hu : cached_leader_usable self ping replicas (cached_leader m key)
                 = false).
    { apply Hdead. intros c r _ Hin _. now apply Hnone. }
    pose proof (first_live_sorted_desc self ping replicas) as Ho.
    rewrite Hu in Hr.
    destruct (first_live self ping (sorted_desc replicas)) as [i|] eqn:Hfl.
    + destruct Ho as [(r & Hin & _ & Ha) _].
      rewrite (Hnone r Hin) in Ha. discriminate.
    + split; [exact Hr | now rewrite Hc, Hr].
Qed.

Lemma ensure_replica_leader_stable_witness :
  snd (ensure_replica_leader_n 3 (addr Examples.node_a) Examples.ping_all
         (fst (ensure_replica_leader (addr Examples.node_a) Examples.ping_all
                 (Election.new 1) "k" Examples.replicas_ab))
         "k" Examples.replicas_ab)
  = replicate 3
      (snd (ensure_replica_leader (addr Examples.node_a) Examples.ping_all
              (Election.new 1) "k" Examples.replicas_ab)).
Proof.
  destruct (ensure_replica_leader_stable
              (addr Examples.node_a) Examples.ping_all (Election.new 1)
              "k" Examples.replicas_ab) as [H _].
  - discriminate.
  - apply (H 3%nat).
Defined.

(** C8 fails as stated: a leader elected while a higher replica was
    down stays the answer once that replica is back, although it is no
    longer the highest live one. *)
Lemma ensure_replica_leader_keeps_cached_leader :
  snd (ensure_replica_leader_n 2 (addr Examples.node_a) Examples.ping_all
         Examples.mgr_after_outage "k" Examples.replicas_ab)
  = [Some 1; Some 1] /\
  is_highest_live (addr Examples.node_a) Examples.ping_all
    Examples.replicas_ab 2 /\
  ~ is_highest_live (addr Examples.node_a) Examples.ping_all
      Examples.replicas_ab 1.
Proof.
  split; [vm_compute; reflexivity|]. split.
  - split.
    + exists Examples.node_b. split; [right; left | split; reflexivity].
    + intros r Hr _. unfold Examples.replicas_ab in Hr.
      apply elem_of_cons in Hr as [->|Hr]; [simpl; lia|].
      apply list_elem_of_singleton in Hr as ->. simpl; lia.
  - intros [_ Hmax].
    specialize (Hmax Examples.node_b). simpl in Hmax.
    assert (2 <= 1); [|lia].
    apply Hmax; [right; left | reflexivity].
Qed.

End ElectionFacts.

(** ** chord_node.py: [handle_get] *)
Section ReadFacts.
Import Str KV Election Chord.

Variable replica_get : string -> string -> option replica_get_resp.
Variable key : string.

Lemma better_orb bts bw ts w :
  (ts >? bts) || ((ts =? bts) && str_gt w bw) = _better bts bw ts w.
Proof.
  unfold _better. destruct (ts >? bts); [reflexivity|]. simpl.
  now destruct ((ts =? bts) && str_gt w bw).
Qed.

Lemma read_step_merge (st : read_state) (r : NodeRef) :
  read_inv st ->
  (forall v ts w, replica_get (addr r) key = Some (Found v ts w) ->
                  v <> PNone) ->
  (found_any st = false -> best_value st = PNone) ->
  let st' := read_step replica_get key st r in
  read_inv st' /\
  (found_any st' = false -> best_value st' = PNone) /\
  best_of st' = match found_entry (replica_get (addr r) key) with
                | Some e => lww_merge (best_of st) e
                | None => best_of st
                end.
Proof.
  intros Hinv Hv Hnone. unfold read_step, best_of, read_inv in *.
  destruct (replica_get (addr r) key) as [[|v ts w]|] eqn:Hr; simpl;
    try (split; [exact Hinv | split; [exact Hnone | reflexivity]]).
  specialize (Hv v ts w eq_refl).
  destruct (found_any st) eqn:Hf.
  - specialize (Hinv eq_refl).
    assert (is_none (best_value st) = false) as ->
      by (destruct (best_value st); [congruence | reflexivity..]).
    rewrite orb_false_l, better_orb. cbn [lww_merge fst snd].
    destruct (_better (best_ts st) (best_writer st) ts w); simpl.
    + split; [intros _; exact Hv | split; [discriminate | reflexivity]].
    + split; [intros _; exact Hinv | split; [discriminate | reflexivity]].
  - rewrite (Hnone eq_refl). simpl.
    split; [intros _; exact Hv | split; [discriminate | reflexivity]].
Qed.

Lemma read_fold_merge (qs : list NodeRef) : forall st,
  read_inv st ->
  (found_any st = false -> best_value st = PNone) ->
  (forall r v ts w, r ∈ qs ->
     replica_get (addr r) key = Some (Found v ts w) -> v <> PNone) ->
  best_of (foldl (read_step replica_get key) st qs)
  = foldl lww_merge (best_of st) (found_entries replica_get key qs).
Proof.
  induction qs as [|r qs IH]; intros st Hinv Hnone Hv; simpl;
    [reflexivity|].
  destruct (read_step_merge st r Hinv) as (Hinv' & Hnone' & Hb);
    [intros v ts w; apply Hv; left | exact Hnone |].
  rewrite IH; try assumption.
  - rewrite Hb. unfold found_entries. simpl.
    now destruct (found_entry (replica_get (addr r) key)).
  - intros r' v ts w Hr'. apply Hv. now right.
Qed.

(** Without a reported [None] value the loop ends on a greatest
    reported version, and on nothing when nothing was reported. *)
Lemma read_fold_max (qs : list NodeRef) :
  (forall r v ts w, r ∈ qs ->
     replica_get (addr r) key = Some (Found v ts w) -> v <> PNone) ->
  match best_of (foldl (read_step replica_get key) read_init qs) with
  | None => found_entries replica_get key qs = []
  | Some e =>
      e ∈ found_entries replica_get key qs /\
      forall x, x ∈ found_entries replica_get key qs ->
                ~ version_gt (ver x) (ver e)
  end.
Proof.
  intros Hv. rewrite read_fold_merge; try assumption;
    [|discriminate | reflexivity].
  change (best_of read_init) with (@None entry).
  destruct (found_entries replica_get key qs) as [|y l]; [reflexivity|].
  cbn [foldl lww_merge].
  destruct (lww_fold_max l y) as (e & -> & Hin & Hmax).
  split; [exact Hin|].
  intros x Hx Hgt. apply entry_better_version_gt in Hgt.
  rewrite (Hmax x Hx) in Hgt. discriminate.
Qed.

(** When no queried replica reports the key, the loop records none. *)
Lemma read_fold_miss (qs : list NodeRef) : forall st,
  found_entries replica_get key qs = [] ->
  found_any (foldl (read_step replica_get key) st qs) = found_any st.
Proof.
  induction qs as [|r qs IH]; intros st; simpl; [reflexivity|].
  unfold found_entries. simpl.
  destruct (found_entry (replica_get (addr r) key)) as [e|] eqn:He;
    [discriminate|].
  intros Hq. rewrite (IH _ Hq). unfold read_step.
  destruct (replica_get (addr r) key) as [[|v ts w]|]; simpl;
    [reflexivity | discriminate | reflexivity].
Qed.

End ReadFacts.

Section HandleGetFacts.
Import Str KV Election Chord.

(** X22.  The miss half of the read path: when no queried replica reports the
    key, [handle_get] returns nothing, [/get] answers the miss and no
    repair is sent. *)
Lemma handle_get_miss self ping replica_get m key replicas :
  found_entries replica_get key
    (query_order replicas
       (snd (ensure_replica_leader self ping m key replicas))) = [] ->
  snd (fst (handle_get self ping replica_get m key replicas)) = None /\
  get_route (snd (fst (handle_get self ping replica_get m key replicas)))
  = GetMiss /\
  snd (handle_get self ping replica_get m key replicas) = [].
Proof.
  intros Hq. unfold handle_get.
  destruct (ensure_replica_leader self ping m key replicas) as [m1 l].
  simpl in Hq. rewrite (read_fold_miss replica_get key _ _ Hq). simpl.
  repeat split.
Qed.

(** X21.  The hit half, when no reported value is [None]: the version
    returned is a greatest one among those the queried replicas
    reported. *)
Lemma handle_get_lww_max self ping replica_get m key replicas :
  (forall r v ts w, r ∈ replicas ->
     replica_get (addr r) key = Some (Found v ts w) -> v <> PNone) ->
  match snd (fst (handle_get self ping replica_get m key replicas)) with
  | None =>
      found_entries replica_get key
        (query_order replicas
           (snd (ensure_replica_leader self ping m key replicas))) = []
  | Some e =>
      e ∈ found_entries replica_get key
            (query_order replicas
               (snd (ensure_replica_leader self ping m key replicas))) /\
      forall x,
        x ∈ found_entries replica_get key
              (query_order replicas
                 (snd (ensure_replica_leader self ping m key replicas))) ->
        ~ version_gt (ver x) (ver e)
  end.
Proof.
  intros Hv. unfold handle_get.
  destruct (ensure_replica_leader self ping m key replicas) as [m1 l].
  simpl.
  assert (Hq : forall r v ts w, r ∈ query_order replicas l ->
            replica_get (addr r) key = Some (Found v ts w) -> v <> PNone).
  { intros r v ts w Hr. apply Hv.
    unfold query_order in Hr.
    destruct l as [c|]; [|exact Hr].
    destruct (List.find _ replicas) as [ln|] eqn:Hf; [|exact Hr].
    apply elem_of_cons in Hr as [->|Hr].
    - apply List.find_some in Hf as [Hin _]. now apply list_elem_of_In.
    - apply list_elem_of_In in Hr. apply List.filter_In in Hr as [Hr _].
      now apply list_elem_of_In. }
  pose proof (read_fold_max replica_get key _ Hq) as Hmax.
  unfold best_of in Hmax.
  destruct (found_any (foldl (read_step replica_get key) read_init
                         (query_order replicas l))); simpl; exact Hmax.
Qed.

(** C4, at the input where the code departs from it.  The replica
    queried first reports the newest version, whose value is [None];
    the loop takes [best_value is None] for "nothing found yet" and
    lets the older version of the next replica replace it. *)
Theorem handle_get_none_value_not_max :
  snd (fst (handle_get (addr Examples.node_a) Examples.ping_all
              Examples.stale_replica_get (Election.new 1) "k"
              Examples.replicas_ab))
  = Some (PStr "x", 3, "b") /\
  get_route
    (snd (fst (handle_get (addr Examples.node_a) Examples.ping_all
                 Examples.stale_replica_get (Election.new 1) "k"
                 Examples.replicas_ab)))
  = GetHit (PStr "x") 3 "b" /\
  found_entries Examples.stale_replica_get "k"
    (query_order Examples.replicas_ab
       (snd (ensure_replica_leader (addr Examples.node_a) Examples.ping_all
               (Election.new 1) "k" Examples.replicas_ab)))
  = [(PNone, 5, "a"); (PStr "x", 3, "b")] /\
  version_gt (5, "a") (3, "b").
Proof.
  split; [vm_compute; reflexivity|].
  split; [vm_compute; reflexivity|].
  split; [vm_compute; reflexivity|].
  left. simpl. lia.
Qed.

End HandleGetFacts.

(** ** gnutella.py *)
Section GnutellaFacts.
Import Chord Gnutella.

Lemma forward_loop_trace post q origin nbs : forall acc trace,
  snd (forward_loop post q origin nbs acc trace)
  = trace ++ ((fun nb => Post nb q) <$> filter (fun nb => nb <> origin) nbs).
Proof.
  induction nbs as [|nb rest IH]; intros acc trace; simpl.
  - now rewrite app_nil_r.
  - rewrite filter_cons. case_bool_decide as Hnb.
    + subst nb. rewrite decide_False by (intros H; now apply H).
      apply IH.
    + rewrite decide_True by exact Hnb.
      destruct (post nb q) as [resp|]; rewrite IH, <- app_assoc; reflexivity.
Qed.

(** What one call of [g_query_received] does, by cases on the seen
    set. *)
Lemma g_query_received_cases post (n : Node) msg_id key ttl origin :
  (msg_id ∈ g_seen n ->
   g_query_received post n msg_id key ttl origin
   = (n, {| matches := []; forwarded := 0 |}, [])) /\
  (msg_id ∉ g_seen n ->
   exists res posts,
     g_query_received post n msg_id key ttl origin
     = (mark_seen n msg_id, res, MarkSeen msg_id :: posts) /\
     (ttl <= 0 -> posts = []) /\
     (forall ev, ev ∈ posts ->
        exists nb,
          ev = Post nb {| q_msg_id := msg_id; q_key := key;
                          q_ttl := ttl - 1; q_origin := node_addr n |} /\
          nb <> origin /\ nb ∈ g_neighbors n)).
Proof.
  unfold g_query_received. split.
  - intros Hin. now rewrite bool_decide_eq_true_2.
  - intros Hnin. rewrite bool_decide_eq_false_2 by exact Hnin.
    destruct (Z.leb_spec ttl 0) as [Hle|Hgt].
    + eexists _, []. split; [reflexivity|]. split; [reflexivity|].
      intros ev Hev. now apply elem_of_nil in Hev.
    + match goal with
      | |- context [forward_loop ?p ?q ?o ?nbs ?acc ?tr] =>
          pose proof (forward_loop_trace p q o nbs acc tr) as Ht;
          destruct (forward_loop p q o nbs acc tr) as [res trace]
      end.
      simpl in Ht. subst trace.
      eexists res, _. split; [reflexivity|]. split; [lia|].
      intros ev Hev. apply list_elem_of_fmap in Hev as (nb & -> & Hnb).
      apply list_elem_of_filter in Hnb as [Hne Hnb].
      exists nb. split; [reflexivity|]. split; [exact Hne|].
      now apply elem_of_elements in Hnb.
Qed.

Lemma forwarded_ids_cons ev trace m :
  m ∈ forwarded_ids (ev :: trace) ->
  (exists nb q, ev = Post nb q /\ q_msg_id q = m) \/ m ∈ forwarded_ids trace.
Proof.
  unfold forwarded_ids. simpl. intros H. apply elem_of_app in H as [H|H].
  - left. destruct ev as [?|nb q]; [now apply elem_of_nil in H|].
    apply list_elem_of_singleton in H. eauto.
  - now right.
Qed.

Lemma forwarded_ids_posts trace m :
  m ∈ forwarded_ids trace ->
  exists nb q, Post nb q ∈ trace /\ q_msg_id q = m.
Proof.
  induction trace as [|ev trace IH]; intros H.
  - now apply elem_of_nil in H.
  - apply forwarded_ids_cons in H as [(nb & q & -> & Hq)|H].
    + exists nb, q. split; [left | exact Hq].
    + destruct (IH H) as (nb & q & Hin & Hq).
      exists nb, q. split; [now right | exact Hq].
Qed.

Lemma flood_loop_ids post q nbs : forall acc trace m,
  m ∈ forwarded_ids (snd (flood_loop post q nbs acc trace)) ->
  m ∈ forwarded_ids trace \/ m = q_msg_id q.
Proof.
  induction nbs as [|nb rest IH]; intros acc trace m; simpl; [now left|].
  assert (Hstep : m ∈ forwarded_ids (trace ++ [Post nb q]) ->
                  m ∈ forwarded_ids trace \/ m = q_msg_id q).
  { unfold forwarded_ids. rewrite flat_map_app. simpl.
    intros H. apply elem_of_app in H as [H|H]; [now left|].
    right. now apply list_elem_of_singleton in H. }
  destruct (post nb q) as [resp|]; intros H; apply IH in H as [H|H];
    auto.
Qed.

(** A step never shrinks the seen set, and a message id it forwards
    was not seen before and is seen afterwards. *)
Lemma g_step_seen (n : Node) (c : g_call) :
  g_seen n ⊆ g_seen (fst (g_step n c)) /\
  (call_fresh n c ->
   forall m, m ∈ forwarded_ids (snd (g_step n c)) ->
             (m ∉ g_seen n) /\ (m ∈ g_seen (fst (g_step n c)))).
Proof.
  destruct c as [post msg_id key ttl origin|post msg_id key ttl|nbs]; simpl.
  - destruct (g_query_received_cases post n msg_id key ttl origin)
      as [Hseen Hnew].
    destruct (decide (msg_id ∈ g_seen n)) as [Hin|Hnin].
    + rewrite (Hseen Hin). simpl. split; [reflexivity|].
      intros _ m Hm. now apply elem_of_nil in Hm.
    + destruct (Hnew Hnin) as (res & posts & -> & _ & Hposts). simpl.
      split; [apply union_subseteq_r|].
      intros _ m Hm. apply forwarded_ids_posts in Hm as (nb & q & Hin & Hq).
      destruct (Hposts _ Hin) as (nb' & Heq & _). inversion Heq; subst.
      simpl. split; [exact Hnin|].
      apply elem_of_union_l, elem_of_singleton. reflexivity.
  - unfold g_handle_query.
    destruct (ttl <=? 0); simpl.
    + split; [apply union_subseteq_r|].
      intros _ m Hm. now apply elem_of_nil in Hm.
    + match goal with
      | |- context [flood_loop ?p ?q ?nbs ?acc ?tr] =>
          pose proof (flood_loop_ids p q nbs acc tr) as Hids;
          destruct (flood_loop p q nbs acc tr) as [res trace]
      end.
      simpl in *. split; [apply union_subseteq_r|].
      intros Hfresh m Hm. apply Hids in Hm as [Hm| ->].
      * now apply elem_of_nil in Hm.
      * split; [exact Hfresh|].
        apply elem_of_union_l, elem_of_singleton. reflexivity.
  - split; [reflexivity|].
    intros _ m Hm. now apply elem_of_nil in Hm.
Qed.

Lemma g_run_seen (calls : list g_call) : forall (n : Node) m,
  uuids_fresh n calls -> m ∈ g_seen n ->
  forall t, t ∈ snd (g_run n calls) -> m ∉ forwarded_ids t.
Proof.
  induction calls as [|c rest IH]; intros n m Hfresh Hm t Ht;
    simpl in Ht, Hfresh.
  - now apply elem_of_nil in Ht.
  - destruct Hfresh as [Hc Hrest].
    destruct (g_step_seen n c) as [Hsub Hfw]. specialize (Hfw Hc).
    destruct (g_step n c) as [n1 t1]; simpl in Hsub, Hfw, Hrest.
    specialize (IH n1 m Hrest (Hsub m Hm)).
    destruct (g_run n1 rest) as [n2 ts]; simpl in Ht, IH.
    apply elem_of_cons in Ht as [->|Ht]; [|now apply IH].
    intros Hin. now destruct (Hfw m Hin).
Qed.

Lemma g_run_forwards_once (calls : list g_call) :
  forall (n : Node) (i j : nat) ti tj m,
  uuids_fresh n calls ->
  (i < j)%nat ->
  snd (g_run n calls) !! i = Some ti ->
  snd (g_run n calls) !! j = Some tj ->
  m ∈ forwarded_ids ti -> m ∉ forwarded_ids tj.
Proof.
  induction calls as [|c rest IH]; intros n i j ti tj m Hfresh Hij Hi Hj Hm;
    simpl in Hi, Hj, Hfresh; [discriminate|].
  destruct Hfresh as [Hc Hrest].
  destruct (g_step_seen n c) as [_ Hfw]. specialize (Hfw Hc).
  pose proof (g_run_seen rest (fst (g_step n c)) m Hrest) as Hlater.
  specialize (IH (fst (g_step n c))).
  destruct (g_step n c) as [n1 t1]; simpl in Hfw, Hlater, IH, Hrest.
  destruct (g_run n1 rest) as [n2 ts]; simpl in Hi, Hj, Hlater, IH.
  destruct j as [|j]; [lia|]. simpl in Hj.
  destruct i as [|i]; simpl in Hi.
  - inversion Hi; subst t1.
    apply Hlater; [now apply Hfw|].
    now apply list_elem_of_lookup_2 in Hj.
  - apply (IH i j ti tj m); [assumption | lia | assumption..].
Qed.

(** C7.  A query whose id is in the seen set is answered with no
    matches and a forward count of zero, and nothing is posted.  Any
    other query first enters the seen set; what is posted afterwards
    goes to neighbours other than the origin only, carries the same id
    with the TTL decremented, and is posted only when the TTL is
    positive.  Along any sequence of calls at a node, its own floods
    starting under fresh ids, no id is forwarded by two of them. *)
Theorem g_query_received_forwards_once
    (post : string -> g_query -> option g_result) (n : Node)
    (msg_id key : string) (ttl : Z) (origin : string) :
  (msg_id ∈ g_seen n ->
   g_query_received post n msg_id key ttl origin
   = (n, {| matches := []; forwarded := 0 |}, [])) /\
  (msg_id ∉ g_seen n ->
   exists res posts,
     g_query_received post n msg_id key ttl origin
     = (mark_seen n msg_id, res, MarkSeen msg_id :: posts) /\
     msg_id ∈ g_seen (mark_seen n msg_id) /\
     (ttl <= 0 -> posts = []) /\
     (forall ev, ev ∈ posts ->
        exists nb,
          ev = Post nb {| q_msg_id := msg_id; q_key := key;
                          q_ttl := ttl - 1; q_origin := node_addr n |} /\
          nb <> origin /\ nb ∈ g_neighbors n)) /\
  (forall calls i j ti tj m,
     uuids_fresh n calls ->
     (i < j)%nat ->
     snd (g_run n calls) !! i = Some ti ->
     snd (g_run n calls) !! j = Some tj ->
     m ∈ forwarded_ids ti -> m ∉ forwarded_ids tj).
Proof.
  destruct (g_query_received_cases post n msg_id key ttl origin)
    as [Hseen Hnew].
  split; [exact Hseen|]. split.
  - intros Hnin. destruct (Hnew Hnin) as (res & posts & Heq & Httl & Hposts).
    exists res, posts. split; [exact Heq|].
    split; [simpl; apply elem_of_union_l, elem_of_singleton; reflexivity|].
    split; assumption.
  - intros calls. apply g_run_forwards_once.
Qed.

Lemma g_query_received_forwards_once_witness :
  g_query_received Examples.post_none Examples.flood_node
    "m1" "k" 3 "10.0.0.3:5000"
  = (Examples.flood_node, {| matches := []; forwarded := 0 |}, []) /\
  exists res posts,
    g_query_received Examples.post_none Examples.flood_node
      "m2" "k" 3 "10.0.0.3:5000"
    = (mark_seen Examples.flood_node "m2", res, MarkSeen "m2" :: posts) /\
    forall ev, ev ∈ posts ->
      exists nb,
        ev = Post nb {| q_msg_id := "m2"; q_key := "k"; q_ttl := 3 - 1;
                        q_origin := node_addr Examples.flood_node |} /\
        nb <> "10.0.0.3:5000" /\ nb ∈ g_neighbors Examples.flood_node.
Proof.
  destruct (g_query_received_forwards_once
              Examples.post_none Examples.flood_node
              "m1" "k" 3 "10.0.0.3:5000") as [Hseen _].
  destruct (g_query_received_forwards_once
              Examples.post_none Examples.flood_node
              "m2" "k" 3 "10.0.0.3:5000") as (_ & Hnew & _).
  split.
  - apply Hseen. simpl. apply elem_of_singleton. reflexivity.
  - destruct Hnew as (res & posts & Heq & _ & _ & Hposts).
    + simpl. intros H. apply elem_of_singleton in H. discriminate.
    + exists res, posts. split; assumption.
Defined.

(** The same flood reaching the node twice: forwarded to the one
    neighbour that is not the origin, then dropped. *)
Example flood_reaches_twice :
  snd (g_run Examples.flood_node
         [QueryReceived Examples.post_none "m2" "k" 3 "10.0.0.3:5000";
          QueryReceived Examples.post_none "m2" "k" 2 "10.0.0.2:5000"])
  = [[MarkSeen "m2";
      Post "10.0.0.2:5000"
        {| q_msg_id := "m2"; q_key := "k"; q_ttl := 2;
           q_origin := "10.0.0.1:5000" |}];
     []].
Proof. vm_compute. reflexivity. Qed.

End GnutellaFacts.

(** ** metrics.py *)
Section MetricsFacts.
Import Metrics.

Variable float : Type.
Variable fzero : float.
Variable fsub : float -> float -> float.
Variable fdiv_int : float -> Z -> option float.
Variable idiv_int : Z -> Z -> option float.

Lemma lift_not_zero_division (o : option float) :
  lift float o <> Raise ZeroDivisionError.
Proof. destruct o; discriminate. Qed.

Lemma guarded_truediv_float_int (x : float) (n : Z) :
  (if truthy n then truediv_float_int float fdiv_int x n else Ok fzero)
  <> Raise ZeroDivisionError.
Proof.
  unfold truthy, truediv_float_int.
  destruct (n =? 0); simpl; [discriminate | apply lift_not_zero_division].
Qed.

Lemma guarded_truediv_int_int (a n : Z) :
  (if truthy n then truediv_int_int float idiv_int a n else Ok fzero)
  <> Raise ZeroDivisionError.
Proof.
  unfold truthy, truediv_int_int.
  destruct (n =? 0); simpl; [discriminate | apply lift_not_zero_division].
Qed.

(** C10.  [snapshot] never raises [ZeroDivisionError]; an average whose
    counter is zero is computed as [0.0] without dividing, and that is
    the value of its field in the snapshot. *)
Theorem snapshot_zero_counters (now : float) (m : Metrics float) :
  snapshot float fzero fsub fdiv_int idiv_int now m
    <> Raise ZeroDivisionError /\
  (total_puts m = 0 -> avg_put_lat float fzero fdiv_int m = Ok fzero) /\
  (total_gets m = 0 -> avg_get_lat float fzero fdiv_int m = Ok fzero) /\
  (total_chord_lookups m = 0 ->
   avg_chord_hops float fzero idiv_int m = Ok fzero) /\
  (total_gnutella_queries m = 0 ->
   avg_fwd float fzero idiv_int m = Ok fzero) /\
  (forall s,
     snapshot float fzero fsub fdiv_int idiv_int now m = Ok s ->
     (total_puts m = 0 -> avg_put_latency_sec s = fzero) /\
     (total_gets m = 0 -> avg_get_latency_sec s = fzero) /\
     (total_chord_lookups m = 0 -> avg_hops s = fzero) /\
     (total_gnutella_queries m = 0 -> avg_forwarded_per_query s = fzero)) /\
  (total_puts m = 0 -> total_gets m = 0 ->
   total_chord_lookups m = 0 -> total_gnutella_queries m = 0 ->
   exists s,
     snapshot float fzero fsub fdiv_int idiv_int now m = Ok s /\
     avg_put_latency_sec s = fzero /\ avg_get_latency_sec s = fzero /\
     avg_hops s = fzero /\ avg_forwarded_per_query s = fzero).
Proof.
  assert (Hp : total_puts m = 0 ->
               avg_put_lat float fzero fdiv_int m = Ok fzero)
    by (intros H; unfold avg_put_lat; now rewrite H).
  assert (Hg : total_gets m = 0 ->
               avg_get_lat float fzero fdiv_int m = Ok fzero)
    by (intros H; unfold avg_get_lat; now rewrite H).
  assert (Hc : total_chord_lookups m = 0 ->
               avg_chord_hops float fzero idiv_int m = Ok fzero)
    by (intros H; unfold avg_chord_hops; now rewrite H).
  assert (Hq : total_gnutella_queries m = 0 ->
               avg_fwd float fzero idiv_int m = Ok fzero)
    by (intros H; unfold avg_fwd; now rewrite H).
  split; [|split; [exact Hp|split; [exact Hg|split; [exact Hc|
          split; [exact Hq|split]]]]].
  - unfold snapshot.
    pose proof (guarded_truediv_float_int (sum_put_latency m) (total_puts m))
      as H1.
    pose proof (guarded_truediv_float_int (sum_get_latency m) (total_gets m))
      as H2.
    pose proof (guarded_truediv_int_int (sum_chord_hops m)
                  (total_chord_lookups m)) as H3.
    pose proof (guarded_truediv_int_int (sum_gnutella_forwarded m)
                  (total_gnutella_queries m)) as H4.
    fold (avg_put_lat float fzero fdiv_int m) in H1.
    fold (avg_get_lat float fzero fdiv_int m) in H2.
    fold (avg_chord_hops float fzero idiv_int m) in H3.
    fold (avg_fwd float fzero idiv_int m) in H4.
    destruct (avg_put_lat float fzero fdiv_int m) as [a1|e1]; simpl;
      [|intros E; apply H1; inversion E; reflexivity].
    destruct (avg_get_lat float fzero fdiv_int m) as [a2|e2]; simpl;
      [|intros E; apply H2; inversion E; reflexivity].
    destruct (avg_chord_hops float fzero idiv_int m) as [a3|e3]; simpl;
      [|intros E; apply H3; inversion E; reflexivity].
    destruct (avg_fwd float fzero idiv_int m) as [a4|e4]; simpl;
      [discriminate | intros E; apply H4; inversion E; reflexivity].
  - intros s Hs. unfold snapshot in Hs.
    destruct (avg_put_lat float fzero fdiv_int m) as [a1|e1]; simpl in Hs;
      [|discriminate].
    destruct (avg_get_lat float fzero fdiv_int m) as [a2|e2]; simpl in Hs;
      [|discriminate].
    destruct (avg_chord_hops float fzero idiv_int m) as [a3|e3]; simpl in Hs;
      [|discriminate].
    destruct (avg_fwd float fzero idiv_int m) as [a4|e4]; simpl in Hs;
      [|discriminate].
    inversion Hs; subst s; simpl.
    repeat split; intros H0;
      [specialize (Hp H0) | specialize (Hg H0)
      | specialize (Hc H0) | specialize (Hq H0)]; congruence.
  - intros H1 H2 H3 H4. unfold snapshot.
    rewrite (Hp H1), (Hg H2), (Hc H3), (Hq H4). simpl.
    eexists. split; [reflexivity|]. simpl. repeat split.
Qed.

End MetricsFacts.

Lemma snapshot_zero_counters_witness :
  Metrics.avg_get_lat float PrimFloat.zero Examples.fdiv_int
    Examples.busy_metrics = Metrics.Ok PrimFloat.zero /\
  exists s,
    Metrics.snapshot float PrimFloat.zero PrimFloat.sub
      Examples.fdiv_int Examples.idiv_int 12.5%float Examples.fresh_metrics
    = Metrics.Ok s /\
    Metrics.avg_put_latency_sec s = PrimFloat.zero /\
    Metrics.avg_get_latency_sec s = PrimFloat.zero /\
    Metrics.avg_hops s = PrimFloat.zero /\
    Metrics.avg_forwarded_per_query s = PrimFloat.zero.
Proof.
  split.
  - destruct (snapshot_zero_counters float PrimFloat.zero PrimFloat.sub
                Examples.fdiv_int Examples.idiv_int 12.5%float
                Examples.busy_metrics) as (_ & _ & H & _).
    apply H. reflexivity.
  - destruct (snapshot_zero_counters float PrimFloat.zero PrimFloat.sub
                Examples.fdiv_int Examples.idiv_int 12.5%float
                Examples.fresh_metrics) as (_ & _ & _ & _ & _ & _ & H).
    apply H; reflexivity.
Defined.

(** The guarded division at work on counters that are not zero. *)
Example snapshot_busy_averages :
  Metrics.avg_put_lat float PrimFloat.zero Examples.fdiv_int
    Examples.busy_metrics = Metrics.Ok 0.25%float /\
  Metrics.avg_chord_hops float PrimFloat.zero Examples.idiv_int
    Examples.busy_metrics = Metrics.Ok 1.5%float /\
  Metrics.truediv_float_int float Examples.fdiv_int 0.75%float 0
  = Metrics.Raise Metrics.ZeroDivisionError.
Proof. repeat split; vm_compute; reflexivity. Qed.

(** * Further properties of the code *)

(** ** util.py: the ring structure of [in_interval] *)
Section IntervalFacts.

(** X1.  For two different points, the arcs [(a, b]] and [(b, a]] split the
    ring: every [x] lies in exactly one of them. *)
Theorem in_interval_arcs_partition (x a b : Z) :
  a <> b ->
  Util.in_interval x a b true = negb (Util.in_interval x b a true).
Proof.
  intros Hne. unfold Util.in_interval.
  destruct (Z.ltb_spec a b), (Z.gtb_spec a b), (Z.ltb_spec b a),
           (Z.gtb_spec b a), (Z.ltb_spec a x), (Z.leb_spec x b),
           (Z.gtb_spec x b), (Z.leb_spec x a), (Z.gtb_spec x a),
           (Z.ltb_spec b x);
    simpl; try reflexivity; lia.
Qed.

Lemma in_interval_arcs_partition_witness :
  Util.in_interval 5 4000000000 7 true
  = negb (Util.in_interval 5 7 4000000000 true).
Proof. apply in_interval_arcs_partition. lia. Defined.

(** X2.  [in_interval] depends on ring positions only: turning the three
    ring ids by the same amount does not change the answer. *)
Theorem in_interval_rotation (x a b d : Z) (inclusive_right : bool) :
  Util.ring_id x -> Util.ring_id a -> Util.ring_id b ->
  Util.in_interval ((x + d) mod Config.RING_SIZE)
                   ((a + d) mod Config.RING_SIZE)
                   ((b + d) mod Config.RING_SIZE) inclusive_right
  = Util.in_interval x a b inclusive_right.
Proof.
  unfold Util.ring_id. intros Hx Ha Hb.
  assert (HN : 0 < Config.RING_SIZE) by reflexivity.
  pose proof (Z.mod_pos_bound (x + d) _ HN) as Bx.
  pose proof (Z.mod_pos_bound (a + d) _ HN) as Ba.
  pose proof (Z.mod_pos_bound (b + d) _ HN) as Bb.
  pose proof (Z.div_mod (x + d) Config.RING_SIZE ltac:(lia)) as Ex.
  pose proof (Z.div_mod (a + d) Config.RING_SIZE ltac:(lia)) as Ea.
  pose proof (Z.div_mod (b + d) Config.RING_SIZE ltac:(lia)) as Eb.
  set (N := Config.RING_SIZE) in *.
  set (qx := (x + d) / N) in *. set (rx := (x + d) mod N) in *.
  set (qa := (a + d) / N) in *. set (ra := (a + d) mod N) in *.
  set (qb := (b + d) / N) in *. set (rb := (b + d) mod N) in *.
  assert (Hxa : qx = qa \/ qx = qa + 1 \/ qx = qa - 1) by nia.
  assert (Hxb : qx = qb \/ qx = qb + 1 \/ qx = qb - 1) by nia.
  assert (Hab : qa = qb \/ qa = qb + 1 \/ qa = qb - 1) by nia.
  unfold Util.in_interval.
  destruct (Z.ltb_spec ra rb), (Z.gtb_spec ra rb), (Z.ltb_spec a b),
           (Z.gtb_spec a b); try lia;
    destruct inclusive_right; try reflexivity;
    destruct (Z.ltb_spec ra rx), (Z.leb_spec rx rb), (Z.ltb_spec rx rb),
             (Z.gtb_spec rx ra), (Z.ltb_spec a x), (Z.leb_spec x b),
             (Z.ltb_spec x b), (Z.gtb_spec x a);
    simpl; try reflexivity; nia.
Qed.

Lemma in_interval_rotation_witness :
  Util.in_interval ((4294967290 + 10) mod Config.RING_SIZE)
                   ((4294967000 + 10) mod Config.RING_SIZE)
                   ((3 + 10) mod Config.RING_SIZE) true
  = Util.in_interval 4294967290 4294967000 3 true.
Proof.
  apply in_interval_rotation;
    unfold Util.ring_id, Config.RING_SIZE, Config.RING_BITS; lia.
Defined.

End IntervalFacts.

(** ** kv_store.py: how writes compose *)
Section KVMoreFacts.
Import Str KV.

Lemma entry_better_asym (a b : entry) :
  entry_better a b = true -> entry_better b a = false.
Proof.
  intros Hab. destruct (entry_better b a) eqn:Hba; [|reflexivity].
  pose proof (entry_better_trans a b a Hab Hba) as H.
  now rewrite entry_better_irrefl in H.
Qed.

(** Merging two writes into a slot, in either order. *)
Lemma lww_merge_comm (o : option entry) (e1 e2 : entry) :
  ver e1 <> ver e2 \/ e1 = e2 ->
  lww_merge (lww_merge o e1) e2 = lww_merge (lww_merge o e2) e1.
Proof.
  intros Hd.
  assert (Htie : entry_better e1 e2 = false -> entry_better e2 e1 = false ->
                 e1 = e2).
  { intros H1 H2. destruct Hd as [Hd|Hd]; [|exact Hd].
    exfalso. apply Hd. now apply entry_better_total. }
  destruct o as [o|].
  - rewrite !lww_merge_some.
    destruct (entry_better o e1) eqn:H1, (entry_better o e2) eqn:H2;
      rewrite ?lww_merge_some, ?H1, ?H2.
    + destruct (entry_better e1 e2) eqn:H12.
      * now rewrite (entry_better_asym _ _ H12).
      * destruct (entry_better e2 e1) eqn:H21; [reflexivity|].
        f_equal. now apply Htie.
    + destruct (entry_better e1 e2) eqn:H12; [|reflexivity].
      exfalso. rewrite (entry_better_trans o e1 e2 H1 H12) in H2.
      discriminate.
    + destruct (entry_better e2 e1) eqn:H21; [|reflexivity].
      exfalso. rewrite (entry_better_trans o e2 e1 H2 H21) in H1.
      discriminate.
    + reflexivity.
  - change (lww_merge None e1) with (Some e1).
    change (lww_merge None e2) with (Some e2).
    rewrite !lww_merge_some.
    destruct (entry_better e1 e2) eqn:H12.
    + now rewrite (entry_better_asym _ _ H12).
    + destruct (entry_better e2 e1) eqn:H21; [reflexivity|].
      f_equal. now apply Htie.
Qed.

(** X3.  Two writes commute when they go to different keys, carry different
    [(ts, writer)] pairs, or are the same write. *)
Theorem put_commute (s : gmap string entry)
    (k1 : string) (v1 : pyval) (ts1 : Z) (w1 : string)
    (k2 : string) (v2 : pyval) (ts2 : Z) (w2 : string) :
  k1 <> k2 \/ (ts1, w1) <> (ts2, w2) \/ v1 = v2 ->
  put (put s k1 v1 ts1 w1) k2 v2 ts2 w2
  = put (put s k2 v2 ts2 w2) k1 v1 ts1 w1.
Proof.
  intros Hc. apply map_eq. intros k.
  destruct (decide (k1 = k2)) as [<-|Hne].
  - destruct (decide (k = k1)) as [->|Hk].
    + rewrite !put_lookup. apply lww_merge_comm.
      destruct Hc as [Hc|[Hc|Hc]]; [congruence | now left |].
      destruct (decide ((ts1, w1) = (ts2, w2))) as [E|E]; [|now left].
      right. inversion E; subst. reflexivity.
    + now rewrite !put_lookup_ne.
  - destruct (decide (k = k1)) as [->|Hk1].
    + rewrite put_lookup_ne by congruence.
      rewrite !put_lookup. now rewrite put_lookup_ne by congruence.
    + destruct (decide (k = k2)) as [->|Hk2].
      * rewrite put_lookup, put_lookup_ne by congruence.
        rewrite put_lookup_ne by congruence. now rewrite put_lookup.
      * now rewrite !put_lookup_ne.
Qed.

Lemma put_commute_witness :
  put (put {[ "k" := (PStr "o", 1, "a") ]} "k" (PStr "x") 5 "a")
      "k" (PStr "y") 5 "b"
  = put (put {[ "k" := (PStr "o", 1, "a") ]} "k" (PStr "y") 5 "b")
        "k" (PStr "x") 5 "a".
Proof.
  apply put_commute. right. left. intros H. inversion H.
Defined.

(** X4.  The version a key holds never goes back: after a [put] the key
    holds an entry that is neither older than the one it held nor older
    than the one written. *)
Theorem put_version_monotone (s : gmap string entry)
    (k : string) (v : pyval) (ts : Z) (w : string) :
  exists new,
    put s k v ts w !! k = Some new /\
    ~ version_gt (ts, w) (ver new) /\
    (forall old, s !! k = Some old -> ~ version_gt (ver old) (ver new)) /\
    (new = (v, ts, w) \/ s !! k = Some new).
Proof.
  rewrite put_lookup.
  destruct (s !! k) as [old|] eqn:Hk.
  - rewrite lww_merge_some.
    destruct (entry_better old (v, ts, w)) eqn:Hb.
    + exists (v, ts, w). split; [reflexivity|]. split.
      * intros Hgt. apply (entry_better_version_gt (v, ts, w) (v, ts, w)) in Hgt.
        now rewrite entry_better_irrefl in Hgt.
      * split; [|now left]. intros old' Ho Hgt. inversion Ho; subst old'.
        apply entry_better_version_gt in Hgt.
        now rewrite (entry_better_asym _ _ Hb) in Hgt.
    + exists old. split; [reflexivity|]. split.
      * intros Hgt. apply (entry_better_version_gt old (v, ts, w)) in Hgt.
        congruence.
      * split; [|now right]. intros old' Ho Hgt. inversion Ho; subst old'.
        apply entry_better_version_gt in Hgt.
        now rewrite entry_better_irrefl in Hgt.
  - exists (v, ts, w). cbn [lww_merge]. split; [reflexivity|]. split.
    + intros Hgt. apply (entry_better_version_gt (v, ts, w) (v, ts, w)) in Hgt.
      now rewrite entry_better_irrefl in Hgt.
    + split; [discriminate | now left].
Qed.

End KVMoreFacts.

(** ** chord_node.py: [/replica_sync], anti-entropy and the write path *)
Section ReplicationFacts.
Import Str KV Election Chord Replication.

Lemma replica_sync_cons (n : Node) k (e : entry) items :
  replica_sync n ((k, e) :: items)
  = replica_sync (replica_put n k (fst (fst e)) (snd (fst e)) (snd e)) items.
Proof. reflexivity. Qed.

Lemma replica_put_lookup (n : Node) k v ts w :
  kv (replica_put n k v ts w) = put (kv n) k v ts w.
Proof. reflexivity. Qed.

Lemma replica_put_time (n : Node) k v ts w :
  Lamport.time (clock (replica_put n k v ts w))
  = Z.max (Lamport.time (clock n)) ts + 1.
Proof. reflexivity. Qed.

Lemma replica_sync_lookup (items : list (string * entry)) :
  forall (n : Node) (k : string),
  NoDup items.*1 ->
  kv (replica_sync n items) !! k
  = match (list_to_map items : gmap string entry) !! k with
    | Some e => lww_merge (kv n !! k) e
    | None => kv n !! k
    end.
Proof.
  induction items as [|[k0 [[v ts] w]] items IH]; intros n k Hnd.
  - reflexivity.
  - rewrite replica_sync_cons. cbn [fst snd].
    rewrite fmap_cons in Hnd. apply NoDup_cons in Hnd as [Hnin Hnd].
    rewrite (IH _ k Hnd), replica_put_lookup, list_to_map_cons.
    destruct (decide (k = k0)) as [->|Hne].
    + rewrite lookup_insert_eq.
      rewrite (not_elem_of_list_to_map_1 items k0 Hnin).
      apply put_lookup.
    + rewrite lookup_insert_ne by congruence.
      now rewrite put_lookup_ne.
Qed.

Lemma replica_sync_time (items : list (string * entry)) : forall n : Node,
  Lamport.time (clock n) + Z.of_nat (length items)
    <= Lamport.time (clock (replica_sync n items)) /\
  forall k e, (k, e) ∈ items ->
    snd (fst e) < Lamport.time (clock (replica_sync n items)).
Proof.
  induction items as [|[k0 [[v ts] w]] items IH]; intros n.
  - split; [simpl; lia|]. intros k e H. now apply elem_of_nil in H.
  - rewrite replica_sync_cons. cbn [fst snd].
    destruct (IH (replica_put n k0 v ts w)) as [Hlen Hts].
    rewrite replica_put_time in Hlen.
    split; [cbn [length]; lia|].
    intros k e H. apply elem_of_cons in H as [H|H]; [|now apply (Hts k)].
    inversion H; subst. cbn [fst snd]. lia.
Qed.

(** X5.  What [/replica_sync] leaves under a key is the merge of what the
    key held with the item posted for it, whatever the order in which
    the posted object yields its items; the clock ends above every
    posted timestamp and has moved once per item. *)
Theorem replica_sync_per_key (n : Node) (items : list (string * entry)) :
  NoDup items.*1 ->
  (forall k,
     kv (replica_sync n items) !! k
     = match (list_to_map items : gmap string entry) !! k with
       | Some e => lww_merge (kv n !! k) e
       | None => kv n !! k
       end) /\
  (forall items', items' ≡ₚ items ->
     kv (replica_sync n items') = kv (replica_sync n items)) /\
  (forall k e, (k, e) ∈ items ->
     snd (fst e) < Lamport.time (clock (replica_sync n items))) /\
  Lamport.time (clock n) + Z.of_nat (length items)
    <= Lamport.time (clock (replica_sync n items)).
Proof.
  intros Hnd. split; [|split; [|split]].
  - intros k. now apply replica_sync_lookup.
  - intros items' Hp. apply map_eq. intros k.
    assert (Hnd' : NoDup items'.*1) by now rewrite Hp.
    rewrite !replica_sync_lookup by assumption.
    now rewrite (list_to_map_proper items' items Hnd' Hp).
  - apply replica_sync_time.
  - apply replica_sync_time.
Qed.

Lemma replica_sync_per_key_witness :
  kv (replica_sync (MoreExamples.node_with "10.0.0.1:5000" 1 0
                      MoreExamples.store_a)
        [("b", (PStr "y", 2, "w")); ("k", (PStr "z", 7, "w"))])
  = kv (replica_sync (MoreExamples.node_with "10.0.0.1:5000" 1 0
                        MoreExamples.store_a)
          [("k", (PStr "z", 7, "w")); ("b", (PStr "y", 2, "w"))]).
Proof.
  apply replica_sync_per_key.
  - apply NoDup_cons. split.
    + intros H. apply list_elem_of_singleton in H. discriminate.
    + apply NoDup_singleton.
  - apply perm_swap.
Defined.

(** X6.  A sync that brings nothing newer leaves the store as it was; in
    particular a node can be sent its own dump. *)
Theorem replica_sync_nothing_newer (n : Node) (items : list (string * entry)) :
  (forall k e, (k, e) ∈ items ->
     exists e', kv n !! k = Some e' /\ ~ version_gt (ver e) (ver e')) ->
  kv (replica_sync n items) = kv n.
Proof.
  revert n. induction items as [|[k0 [[v ts] w]] items IH]; intros n H.
  - reflexivity.
  - rewrite replica_sync_cons. cbn [fst snd].
    assert (Hput : put (kv n) k0 v ts w = kv n).
    { destruct (H k0 (v, ts, w)) as (e' & He' & Hng); [left|].
      destruct e' as [[ov ots] ow]. unfold put.
      destruct (kv n !! k0) as [[[ov' ots'] ow']|]; [|discriminate].
      inversion He'; subst.
      destruct (_better ots ow ts w) eqn:Hb; [|reflexivity].
      exfalso. apply Hng. now apply _better_version_gt. }
    rewrite IH; [now rewrite replica_put_lookup|].
    intros k e Hin. rewrite replica_put_lookup, Hput.
    apply H. now right.
Qed.

Lemma replica_sync_nothing_newer_witness :
  kv (replica_sync (MoreExamples.node_with "10.0.0.1:5000" 1 0
                      MoreExamples.store_a)
        [("k", (PStr "old", 4, "z")); ("k", (PStr "x", 5, "a"))])
  = kv (MoreExamples.node_with "10.0.0.1:5000" 1 0 MoreExamples.store_a).
Proof.
  apply replica_sync_nothing_newer.
  intros k e H. exists (PStr "x", 5, "a").
  apply elem_of_cons in H as [H|H];
    [|apply list_elem_of_singleton in H]; inversion H; subst;
    (split; [reflexivity|]);
    intros [Hgt|[Heq Hlex]]; simpl in *; try lia;
    apply str_lt_lex in Hlex; cbv in Hlex; discriminate.
Defined.

Lemma sync_dump_lookup (r : Node) (payload : gmap string entry) k :
  kv (replica_sync r (map_to_list payload)) !! k
  = match payload !! k with
    | Some e => lww_merge (kv r !! k) e
    | None => kv r !! k
    end.
Proof.
  rewrite replica_sync_lookup by apply NoDup_fst_map_to_list.
  now rewrite list_to_map_to_list.
Qed.



(** X8.  Two nodes that send each other their dumps end with the same
    [(ts, writer)] pair under every key, and with the same store when
    they never held different values under one pair. *)
Theorem anti_entropy_exchange_converges (n1 n2 : Node) :
  (forall k,
     ver <$> kv (replica_sync n1 (map_to_list (kv n2))) !! k
     = ver <$> kv (replica_sync n2 (map_to_list (kv n1))) !! k) /\
  ((forall k e1 e2, kv n1 !! k = Some e1 -> kv n2 !! k = Some e2 ->
                    ver e1 = ver e2 -> e1 = e2) ->
   kv (replica_sync n1 (map_to_list (kv n2)))
   = kv (replica_sync n2 (map_to_list (kv n1)))).
Proof.
  split.
  - intros k. rewrite !sync_dump_lookup.
    destruct (kv n1 !! k) as [e1|], (kv n2 !! k) as [e2|]; try reflexivity.
    rewrite !lww_merge_some.
    destruct (entry_better e1 e2) eqn:H12.
    + now rewrite (entry_better_asym _ _ H12).
    + destruct (entry_better e2 e1) eqn:H21; [reflexivity|].
      simpl. f_equal. now apply entry_better_total.
  - intros Htie. apply map_eq. intros k. rewrite !sync_dump_lookup.
    destruct (kv n1 !! k) as [e1|] eqn:H1, (kv n2 !! k) as [e2|] eqn:H2;
      try reflexivity.
    rewrite !lww_merge_some.
    destruct (entry_better e1 e2) eqn:H12.
    + now rewrite (entry_better_asym _ _ H12).
    + destruct (entry_better e2 e1) eqn:H21; [reflexivity|].
      f_equal. apply (Htie k); [exact H1 | exact H2 |].
      now apply entry_better_total.
Qed.

Lemma anti_entropy_exchange_converges_witness :
  kv (replica_sync
        (MoreExamples.node_with "10.0.0.1:5000" 1 0 MoreExamples.store_a)
        (map_to_list
           (kv (MoreExamples.node_with "10.0.0.2:5000" 2 0
                  MoreExamples.store_b))))
  = kv (replica_sync
          (MoreExamples.node_with "10.0.0.2:5000" 2 0 MoreExamples.store_b)
          (map_to_list
             (kv (MoreExamples.node_with "10.0.0.1:5000" 1 0
                    MoreExamples.store_a)))).
Proof.
  apply anti_entropy_exchange_converges.
  intros k e1 e2 H1 H2 Hv. simpl in H1, H2.
  unfold MoreExamples.store_a in H1. unfold MoreExamples.store_b in H2.
  apply lookup_singleton_Some in H1 as [_ <-].
  apply lookup_singleton_Some in H2 as [_ <-].
  inversion Hv.
Defined.

Lemma put_covered (s : gmap string entry) k v ts w (t t' : Z) :
  (forall k0 v0 ts0 w0, s !! k0 = Some (v0, ts0, w0) -> ts0 <= t) ->
  t <= t' -> ts <= t' ->
  forall k0 v0 ts0 w0,
    put s k v ts w !! k0 = Some (v0, ts0, w0) -> ts0 <= t'.
Proof.
  intros Hs Ht Hts k0 v0 ts0 w0 H.
  destruct (decide (k0 = k)) as [->|Hne].
  - rewrite put_lookup in H.
    destruct (s !! k) as [[[ov ots] ow]|] eqn:Hk.
    + rewrite lww_merge_some in H.
      destruct (entry_better _ _); inversion H; subst; [lia|].
      specialize (Hs _ _ _ _ Hk). lia.
    + inversion H; subst. lia.
  - rewrite put_lookup_ne in H by exact Hne.
    specialize (Hs _ _ _ _ H). lia.
Qed.

Lemma replica_put_covers (n : Node) k v ts w :
  clock_covers_store n -> clock_covers_store (replica_put n k v ts w).
Proof.
  intros H k0 v0 ts0 w0. rewrite replica_put_lookup, replica_put_time.
  apply (put_covered _ _ _ _ _ (Lamport.time (clock n))); [exact H | lia..].
Qed.

Lemma replica_sync_covers (items : list (string * entry)) : forall n : Node,
  clock_covers_store n -> clock_covers_store (replica_sync n items).
Proof.
  induction items as [|[k0 [[v ts] w]] items IH]; intros n H; [exact H|].
  rewrite replica_sync_cons. apply IH. now apply replica_put_covers.
Qed.

Lemma handle_put_fields ping (n : Node) key value client_ts writer replicas :
  kv (fst (fst (handle_put ping n key value client_ts writer replicas)))
  = put (kv n) key value
        (snd (fst (handle_put ping n key value client_ts writer replicas)))
        writer /\
  Lamport.time
    (clock (fst (fst (handle_put ping n key value client_ts writer replicas))))
  = snd (fst (handle_put ping n key value client_ts writer replicas)) /\
  snd (fst (handle_put ping n key value client_ts writer replicas))
  = match client_ts with
    | None => Lamport.time (clock n) + 1
    | Some cts => Z.max (Lamport.time (clock n)) cts + 1
    end /\
  snd (handle_put ping n key value client_ts writer replicas)
  = (fun r =>
       (addr r,
        {| p_key := key; p_value := value;
           p_ts := snd (fst (handle_put ping n key value client_ts writer
                               replicas));
           p_writer_id := writer |})) <$> replicas.
Proof.
  unfold handle_put.
  destruct client_ts as [cts|]; simpl;
    destruct (ensure_replica_leader (node_addr n) ping (election_mgr n) key
                replicas) as [m l]; simpl; repeat split.
Qed.

Lemma handle_put_covers ping (n : Node) key value client_ts writer replicas :
  clock_covers_store n ->
  clock_covers_store
    (fst (fst (handle_put ping n key value client_ts writer replicas))).
Proof.
  intros H k0 v0 ts0 w0.
  destruct (handle_put_fields ping n key value client_ts writer replicas)
    as (-> & -> & Hts & _).
  apply (put_covered _ _ _ _ _ (Lamport.time (clock n))); [exact H | |lia].
  rewrite Hts. destruct client_ts; lia.
Qed.

(** X9.  Along any sequence of local puts, replica puts and syncs, no stored
    timestamp gets ahead of the node's clock. *)
Theorem clock_covers_store_kept (n : Node) (evs : list kv_event) :
  clock_covers_store n -> clock_covers_store (kv_run n evs).
Proof.
  unfold kv_run. revert n.
  induction evs as [|ev evs IH]; intros n H; [exact H|].
  simpl. apply IH.
  destruct ev as [ping key value cts w replicas|key value ts w|items]; simpl.
  - now apply handle_put_covers.
  - now apply replica_put_covers.
  - now apply replica_sync_covers.
Qed.

Lemma clock_covers_store_kept_witness :
  clock_covers_store
    (kv_run (MoreExamples.node_with "10.0.0.1:5000" 1 0 ∅)
       [EvReplicaPut "k" (PStr "x") 9 "b";
        EvPut Examples.ping_all "k" (PStr "y") None "a" Examples.replicas_ab;
        EvReplicaSync [("j", (PStr "z", 40, "c"))]]).
Proof.
  apply clock_covers_store_kept.
  intros k v ts w H. simpl in H. rewrite lookup_empty in H. discriminate.
Defined.

(** X10.  A write through [handle_put] at a node whose clock covers its store
    is what the node holds for the key afterwards: the timestamp it
    returns is above the old clock and above the client's timestamp,
    the new entry replaces whatever was there, the other keys are left
    alone, and the same entry is sent to every replica in order. *)
Theorem handle_put_read_your_write
    (ping : string -> bool) (n : Node) (key : string) (value : pyval)
    (client_ts : option Z) (writer : string) (replicas : list NodeRef) :
  clock_covers_store n ->
  kv (fst (fst (handle_put ping n key value client_ts writer replicas)))
    !! key
  = Some (value,
          snd (fst (handle_put ping n key value client_ts writer replicas)),
          writer) /\
  Lamport.time (clock n)
  < snd (fst (handle_put ping n key value client_ts writer replicas)) /\
  (forall cts, client_ts = Some cts ->
     cts < snd (fst (handle_put ping n key value client_ts writer replicas))) /\
  (forall k', k' <> key ->
     kv (fst (fst (handle_put ping n key value client_ts writer replicas)))
       !! k' = kv n !! k') /\
  snd (handle_put ping n key value client_ts writer replicas)
  = (fun r =>
       (addr r,
        {| p_key := key; p_value := value;
           p_ts := snd (fst (handle_put ping n key value client_ts writer
                               replicas));
           p_writer_id := writer |})) <$> replicas.
Proof.
  intros Hcov.
  destruct (handle_put_fields ping n key value client_ts writer replicas)
    as (Hkv & _ & Hts & Hmsgs).
  assert (Hnew : Lamport.time (clock n)
                 < snd (fst (handle_put ping n key value client_ts writer
                               replicas)))
    by (rewrite Hts; destruct client_ts; lia).
  split; [|split; [exact Hnew|split; [|split; [|exact Hmsgs]]]].
  - rewrite Hkv, put_lookup.
    destruct (kv n !! key) as [[[ov ots] ow]|] eqn:Hk; [|reflexivity].
    rewrite lww_merge_some. unfold entry_better, _better. cbn [fst snd].
    specialize (Hcov _ _ _ _ Hk).
    destruct (Z.gtb_spec
                (snd (fst (handle_put ping n key value client_ts writer
                             replicas))) ots); [reflexivity | lia].
  - intros cts ->. rewrite Hts. lia.
  - intros k' Hne. rewrite Hkv. now apply put_lookup_ne.
Qed.

Lemma handle_put_read_your_write_witness :
  kv (fst (fst (handle_put Examples.ping_all
                  (MoreExamples.node_with "10.0.0.1:5000" 1 7
                     MoreExamples.store_a)
                  "k" (PStr "new") (Some 3) "a" Examples.replicas_ab)))
    !! "k"
  = Some (PStr "new",
          snd (fst (handle_put Examples.ping_all
                      (MoreExamples.node_with "10.0.0.1:5000" 1 7
                         MoreExamples.store_a)
                      "k" (PStr "new") (Some 3) "a" Examples.replicas_ab)),
          "a").
Proof.
  apply handle_put_read_your_write.
  intros k v ts w H. simpl in H. unfold MoreExamples.store_a in H.
  apply lookup_singleton_Some in H as [_ H]. inversion H; subst. simpl. lia.
Defined.

End ReplicationFacts.

(** ** election.py and the election of chord_node.py, further *)
Section ElectionMoreFacts.
Import Election Chord ElectionView.

Lemma get_state_frame (m : ElectionManager) key k' :
  k' <> key ->
  per_key (fst (_get_state m key)) !! k' = per_key m !! k'.
Proof.
  intros Hne. unfold _get_state.
  destruct (per_key m !! key); simpl; [reflexivity|].
  apply lookup_insert_ne. congruence.
Qed.

Lemma get_state_priority (m : ElectionManager) key :
  mgr_priority (fst (_get_state m key)) = mgr_priority m.
Proof. unfold _get_state. now destruct (per_key m !! key). Qed.

Lemma set_leader_frame (m : ElectionManager) key l k' :
  k' <> key -> per_key (set_leader m key l) !! k' = per_key m !! k'.
Proof.
  intros Hne. unfold set_leader.
  pose proof (get_state_frame m key k' Hne) as H.
  destruct (_get_state m key) as [m1 st]; simpl in *.
  rewrite lookup_insert_ne by congruence. exact H.
Qed.

Lemma start_election_frame (m : ElectionManager) key k' :
  k' <> key -> per_key (start_election_local m key) !! k' = per_key m !! k'.
Proof.
  intros Hne. unfold start_election_local.
  pose proof (get_state_frame m key k' Hne) as H.
  destruct (_get_state m key) as [m1 st]; simpl in *.
  rewrite lookup_insert_ne by congruence. exact H.
Qed.

Lemma set_leader_priority (m : ElectionManager) key l :
  mgr_priority (set_leader m key l) = mgr_priority m.
Proof.
  unfold set_leader. pose proof (get_state_priority m key) as H.
  now destruct (_get_state m key).
Qed.

Lemma start_election_priority (m : ElectionManager) key :
  mgr_priority (start_election_local m key) = mgr_priority m.
Proof.
  unfold start_election_local. pose proof (get_state_priority m key) as H.
  now destruct (_get_state m key).
Qed.

Lemma set_leader_flag (m : ElectionManager) key l :
  election_flag (set_leader m key l) key = false.
Proof.
  unfold election_flag, set_leader.
  destruct (_get_state m key) as [m1 st]; simpl.
  now rewrite lookup_insert_eq.
Qed.

Lemma start_election_flag (m : ElectionManager) key :
  election_flag (start_election_local m key) key = true.
Proof.
  unfold election_flag, start_election_local.
  destruct (_get_state m key) as [m1 st]; simpl.
  now rewrite lookup_insert_eq.
Qed.

Lemma start_election_cached (m : ElectionManager) key :
  cached_leader (start_election_local m key) key = cached_leader m key.
Proof.
  unfold cached_leader, start_election_local, _get_state.
  destruct (per_key m !! key) as [st|] eqn:Hk; simpl;
    now rewrite lookup_insert_eq.
Qed.

Lemma get_leader_flag (m : ElectionManager) key :
  election_flag (fst (get_leader m key)) key = election_flag m key.
Proof.
  unfold election_flag, get_leader, _get_state.
  destruct (per_key m !! key) as [st|] eqn:Hk; simpl.
  - now rewrite Hk.
  - now rewrite lookup_insert_eq.
Qed.

(** X11.  The manager as a map from keys to leaders: [get_leader] returns
    what [set_leader] recorded last; starting an election keeps the
    leader and raises the flag, recording a leader lowers it; none of
    the three touches what is on record for another key. *)
Theorem election_manager_round_trip (m : ElectionManager) (key : string)
                                    (l : option Z) :
  get_leader (set_leader m key l) key = (set_leader m key l, l) /\
  snd (get_leader (start_election_local m key) key) = snd (get_leader m key) /\
  election_flag (start_election_local m key) key = true /\
  election_flag (set_leader m key l) key = false /\
  (forall k', k' <> key ->
     snd (get_leader (set_leader m key l) k') = snd (get_leader m k') /\
     snd (get_leader (start_election_local m key) k') = snd (get_leader m k') /\
     snd (get_leader (fst (get_leader m key)) k') = snd (get_leader m k')).
Proof.
  split; [|split; [|split; [|split]]].
  - unfold get_leader, _get_state.
    assert (H : exists st, per_key (set_leader m key l) !! key = Some st /\
                           current_leader st = l).
    { unfold set_leader, store_state, _get_state.
      destruct (per_key m !! key); simpl; rewrite lookup_insert_eq; eauto. }
    destruct H as (st & -> & <-). reflexivity.
  - destruct (get_leader_cached (start_election_local m key) key) as [-> _].
    destruct (get_leader_cached m key) as [-> _].
    apply start_election_cached.
  - apply start_election_flag.
  - apply set_leader_flag.
  - intros k' Hne.
    assert (Hc : forall m1 m2 : ElectionManager,
              per_key m1 !! k' = per_key m2 !! k' ->
              snd (get_leader m1 k') = snd (get_leader m2 k')).
    { intros m1 m2 H.
      destruct (get_leader_cached m1 k') as [-> _].
      destruct (get_leader_cached m2 k') as [-> _].
      unfold cached_leader. now rewrite H. }
    split; [|split]; apply Hc.
    + now apply set_leader_frame.
    + now apply start_election_frame.
    + unfold get_leader.
      pose proof (get_state_frame m key k' Hne) as H.
      now destruct (_get_state m key).
Qed.

Lemma ensure_replica_leader_frame self ping m key replicas k' :
  k' <> key ->
  per_key (fst (ensure_replica_leader self ping m key replicas)) !! k'
  = per_key m !! k'.
Proof.
  intros Hne. unfold ensure_replica_leader.
  destruct replicas as [|r0 rs]; simpl; [now apply set_leader_frame|].
  assert (H1 : per_key (fst (get_leader m key)) !! k' = per_key m !! k').
  { unfold get_leader. pose proof (get_state_frame m key k' Hne) as H.
    now destruct (_get_state m key). }
  destruct (get_leader m key) as [m1 current]; simpl in H1.
  destruct (cached_leader_usable self ping (r0 :: rs) current);
    simpl; [exact H1|].
  rewrite elect_first_live. simpl.
  now rewrite set_leader_frame, start_election_frame.
Qed.

(** X12.  The leader [ensure_replica_leader] returns is always the id of a
    replica of the set that passed the liveness probe; an empty replica
    set gives none and clears the cache.  The call touches the record
    of its own key only, and never leaves the election flag raised
    unless it found it raised. *)
Theorem ensure_replica_leader_live_member
    (self : string) (ping : string -> bool) (m : ElectionManager)
    (key : string) (replicas : list NodeRef) :
  (forall i,
     snd (ensure_replica_leader self ping m key replicas) = Some i ->
     exists r, r ∈ replicas /\ id r = i /\
               _is_node_alive self ping (addr r) = true) /\
  (replicas = [] ->
   snd (ensure_replica_leader self ping m key replicas) = None /\
   cached_leader (fst (ensure_replica_leader self ping m key replicas)) key
   = None) /\
  (forall k', k' <> key ->
     per_key (fst (ensure_replica_leader self ping m key replicas)) !! k'
     = per_key m !! k') /\
  (election_flag (fst (ensure_replica_leader self ping m key replicas)) key
   = true -> election_flag m key = true).
Proof.
  split; [|split; [|split]].
  - intros i Hi. destruct replicas as [|r0 rs]; [discriminate|].
    destruct (ensure_replica_leader_call self ping m key (r0 :: rs))
      as [Hr _]; [discriminate|].
    rewrite Hr in Hi.
    destruct (cached_leader_usable self ping (r0 :: rs) (cached_leader m key))
      eqn:Hu.
    + rewrite Hi in Hu. now apply usable_live_member in Hu.
    + pose proof (first_live_sorted_desc self ping (r0 :: rs)) as Ho.
      rewrite Hi in Ho. now destruct Ho as [Hex _].
  - intros ->. simpl. split; [reflexivity | apply set_leader_cached].
  - intros k'. apply ensure_replica_leader_frame.
  - unfold ensure_replica_leader.
    destruct replicas as [|r0 rs]; simpl.
    { now rewrite set_leader_flag. }
    pose proof (get_leader_flag m key) as Hf.
    destruct (get_leader m key) as [m1 current]; simpl in Hf.
    destruct (cached_leader_usable self ping (r0 :: rs) current); simpl.
    + now rewrite Hf.
    + rewrite elect_first_live. simpl. now rewrite set_leader_flag.
Qed.

Lemma ensure_replica_leader_live_member_witness :
  exists r, r ∈ Examples.replicas_ab /\ id r = 2 /\
            _is_node_alive (addr Examples.node_a) Examples.ping_all (addr r)
            = true.
Proof.
  destruct (ensure_replica_leader_live_member
              (addr Examples.node_a) Examples.ping_all (Election.new 1)
              "k" Examples.replicas_ab) as [H _].
  apply H. vm_compute. reflexivity.
Defined.

End ElectionMoreFacts.

(** ** chord_node.py: fingers and lookups *)
Section RingFacts.
Import Chord Ring.

Lemma scan_fingers_spec fingers self_id key_id (n : nat) :
  match scan_fingers fingers self_id key_id n with
  | Some f =>
      exists i, (i < n)%nat /\ fingers !! i = Some (Some f) /\
        Util.in_interval (id f) self_id key_id false = true /\
        forall j g, (i < j < n)%nat -> fingers !! j = Some (Some g) ->
          Util.in_interval (id g) self_id key_id false = false
  | None =>
      forall j g, (j < n)%nat -> fingers !! j = Some (Some g) ->
        Util.in_interval (id g) self_id key_id false = false
  end.
Proof.
  induction n as [|n IH]; simpl.
  - intros j g Hj. lia.
  - assert (Hskip :
      (forall g, fingers !! n = Some (Some g) ->
                 Util.in_interval (id g) self_id key_id false = false) ->
      match scan_fingers fingers self_id key_id n with
      | Some f =>
          exists i, (i < S n)%nat /\ fingers !! i = Some (Some f) /\
            Util.in_interval (id f) self_id key_id false = true /\
            forall j g, (i < j < S n)%nat -> fingers !! j = Some (Some g) ->
              Util.in_interval (id g) self_id key_id false = false
      | None =>
          forall j g, (j < S n)%nat -> fingers !! j = Some (Some g) ->
            Util.in_interval (id g) self_id key_id false = false
      end).
    { intros Hn. destruct (scan_fingers fingers self_id key_id n) as [f|].
      - destruct IH as (i & Hi & Hf & Hin & Hrest).
        exists i. split; [lia|]. split; [exact Hf|]. split; [exact Hin|].
        intros j g Hj Hg. destruct (decide (j = n)) as [->|Hne];
          [now apply Hn | apply (Hrest j); [lia | exact Hg]].
      - intros j g Hj Hg. destruct (decide (j = n)) as [->|Hne];
          [now apply Hn | apply (IH j); [lia | exact Hg]]. }
    destruct (fingers !! n) as [[f|]|] eqn:Hn.
    + destruct (Util.in_interval (id f) self_id key_id false) eqn:Hin.
      * exists n. split; [lia|]. split; [exact Hn|]. split; [exact Hin|].
        intros j g Hj. lia.
      * apply Hskip. intros g Hg. inversion Hg; subst. exact Hin.
    + apply Hskip. discriminate.
    + apply Hskip. discriminate.
Qed.

(** X13.  [closest_preceding_finger_local] returns the finger of highest
    index whose id lies strictly between the node's id and the key on
    the ring, and nothing exactly when no finger does. *)
Theorem closest_preceding_finger_highest (st : RingState) (key_id : Z) :
  match closest_preceding_finger_local st key_id with
  | Some f =>
      exists i, (i < 32)%nat /\ finger st !! i = Some (Some f) /\
        Util.in_interval (id f) (id (self st)) key_id false = true /\
        forall j g, (i < j < 32)%nat -> finger st !! j = Some (Some g) ->
          Util.in_interval (id g) (id (self st)) key_id false = false
  | None =>
      forall j g, (j < 32)%nat -> finger st !! j = Some (Some g) ->
        Util.in_interval (id g) (id (self st)) key_id false = false
  end.
Proof.
  apply (scan_fingers_spec (finger st) (id (self st)) key_id 32).
Qed.

Lemma scan_fingers_in_table fingers self_id key_id (n : nat) f :
  scan_fingers fingers self_id key_id n = Some f ->
  exists i, fingers !! i = Some (Some f).
Proof.
  intros H. pose proof (scan_fingers_spec fingers self_id key_id n) as Hs.
  rewrite H in Hs. destruct Hs as (i & _ & Hi & _). eauto.
Qed.

Lemma closest_preceding_finger_in_table (st : RingState) key_id f :
  closest_preceding_finger_local st key_id = Some f ->
  exists i, finger st !! i = Some (Some f).
Proof.
  unfold closest_preceding_finger_local. apply scan_fingers_in_table.
Qed.

Lemma find_successor_loop_local (fuel : nat) cpos (st : RingState) key_id :
  forall n hops r hops',
  find_successor_loop fuel cpos st key_id n hops = Some (r, hops') ->
  (r = successor st \/ exists i, finger st !! i = Some (Some r)) /\
  hops + 1 <= hops' <= hops + Z.of_nat fuel.
Proof.
  induction fuel as [|fuel IH]; intros n hops r hops' H; [discriminate|].
  cbn [find_successor_loop] in H.
  assert (Hrec : forall n',
            find_successor_loop fuel cpos st key_id n' (hops + 1)
            = Some (r, hops') ->
            (r = successor st \/ exists i, finger st !! i = Some (Some r)) /\
            hops + 1 <= hops' <= hops + Z.of_nat (S fuel)).
  { intros n' Hn'. apply IH in Hn' as [Hr Hh]. split; [exact Hr | lia]. }
  destruct (Util.in_interval key_id (id n) (id (successor st)) true).
  { inversion H; subst. split; [now left | lia]. }
  destruct (closest_preceding_finger_local st key_id) as [cp|] eqn:Hcp.
  - case_bool_decide.
    + destruct (cpos (addr (successor st)) key_id) as [n'|];
        [now apply (Hrec n')|].
      inversion H; subst. split; [now left | lia].
    + destruct (cpos (addr cp) key_id) as [n'|]; [now apply (Hrec n')|].
      inversion H; subst. split; [|lia].
      right. now apply (closest_preceding_finger_in_table st key_id).
  - destruct (cpos (addr (successor st)) key_id) as [n'|];
      [now apply (Hrec n')|].
    inversion H; subst. split; [now left | lia].
Qed.

(** X14.  [find_successor] answers from the node's own view.  A key in the
    arc up to the successor is answered with the successor in one hop,
    as is every key at a node that is its own successor; and whatever
    the peers answer, the node returned is the node's successor or one
    of its fingers, after at least one hop. *)
Theorem find_successor_answers_locally
    (fuel : nat) (cpos : string -> Z -> option NodeRef)
    (st : RingState) (key_id : Z) :
  (Util.in_interval key_id (id (self st)) (id (successor st)) true = true ->
   find_successor (S fuel) cpos st key_id = Some (successor st, 1)) /\
  (successor st = self st ->
   find_successor (S fuel) cpos st key_id = Some (self st, 1)) /\
  (forall r hops,
     find_successor fuel cpos st key_id = Some (r, hops) ->
     (r = successor st \/ exists i, finger st !! i = Some (Some r)) /\
     1 <= hops <= Z.of_nat fuel).
Proof.
  split; [|split].
  - intros H. unfold find_successor. cbn [find_successor_loop].
    now rewrite H.
  - intros Hs. unfold find_successor. cbn [find_successor_loop].
    rewrite Hs. unfold Util.in_interval.
    rewrite Z.ltb_irrefl.
    destruct (Z.gtb_spec (id (self st)) (id (self st))); [lia | reflexivity].
  - intros r hops H. unfold find_successor in H.
    apply find_successor_loop_local in H. exact H.
Qed.

Lemma find_successor_answers_locally_witness :
  find_successor 1 (fun _ _ => None)
    {| self := Examples.node_a; predecessor := None;
       successor := Examples.node_a; successor_list := [Examples.node_a];
       finger := replicate 32 None; neighbors := ∅ |}
    4000000000
  = Some (Examples.node_a, 1).
Proof.
  apply (find_successor_answers_locally 0 (fun _ _ => None)
           {| self := Examples.node_a; predecessor := None;
              successor := Examples.node_a;
              successor_list := [Examples.node_a];
              finger := replicate 32 None; neighbors := ∅ |}).
  reflexivity.
Defined.

(** The walk keeps the owner in front, the addresses distinct and
    the list within [K_REPLICATION]. *)
Lemma replica_walk_shape (fuel : nat) gs (owner : NodeRef) :
  forall replicas current l,
  (exists rest, replicas = owner :: rest) ->
  NoDup (addr <$> replicas) -> (length replicas <= 3)%nat ->
  replica_walk fuel gs replicas current = Some l ->
  (exists rest, l = owner :: rest) /\ NoDup (addr <$> l) /\
  (length l <= 3)%nat.
Proof.
  induction fuel as [|fuel IH]; intros replicas current l Ho Hnd Hlen H;
    [discriminate|].
  cbn [replica_walk] in H.
  destruct (Z.ltb_spec (Z.of_nat (length replicas)) Config.K_REPLICATION)
    as [Hlt|Hge].
  - destruct (gs (addr current)) as [nxt|].
    + case_bool_decide as Hlast.
      * inversion H; subst. auto.
      * case_bool_decide as Hin.
        -- apply (IH replicas nxt l); assumption.
        -- apply (IH (replicas ++ [nxt]) nxt l); try assumption.
           ++ destruct Ho as [rest ->]. exists (rest ++ [nxt]). reflexivity.
           ++ rewrite fmap_app. apply NoDup_app. split; [exact Hnd|].
              split; [|apply NoDup_singleton].
              intros a Ha Ha'. apply list_elem_of_singleton in Ha'.
              subst a. now apply Hin.
           ++ rewrite length_app. simpl.
              unfold Config.K_REPLICATION in Hlt. lia.
    + inversion H; subst. auto.
  - inversion H; subst. auto.
Qed.

Lemma replica_walk_more_fuel (fuel : nat) gs :
  forall replicas current l,
  replica_walk fuel gs replicas current = Some l ->
  replica_walk (S fuel) gs replicas current = Some l.
Proof.
  induction fuel as [|fuel IH]; intros replicas current l H; [discriminate|].
  cbn [replica_walk] in H |- *.
  destruct (Z.of_nat (length replicas) <? Config.K_REPLICATION);
    [|exact H].
  destruct (gs (addr current)) as [nxt|]; [|exact H].
  destruct (bool_decide (Some (addr nxt) = addr <$> last replicas));
    [exact H|].
  now apply IH.
Qed.

Lemma replica_walk_four gs (owner : NodeRef) :
  is_Some (replica_walk 4 gs [owner] owner).
Proof.
  cbn [replica_walk length]. simpl (Z.of_nat 1 <? _).
  destruct (gs (addr owner)) as [b|] eqn:Hb; [|eauto].
  case_bool_decide as H1; [eauto|].
  assert (Hne : addr b <> addr owner).
  { intros E. apply H1. simpl. now rewrite E. }
  rewrite bool_decide_eq_false_2.
  2:{ simpl. intros Hin. apply list_elem_of_singleton in Hin. now apply Hne. }
  cbn [app length]. simpl (Z.of_nat 2 <? _).
  destruct (gs (addr b)) as [c|] eqn:Hc; [|eauto].
  case_bool_decide as H2; [eauto|].
  case_bool_decide as H3.
  - assert (Hco : addr c = addr owner).
    { simpl in H3. apply elem_of_cons in H3 as [H3|H3]; [exact H3|].
      apply list_elem_of_singleton in H3. exfalso. apply H2. simpl.
      now rewrite H3. }
    simpl (Z.of_nat 2 <? _). rewrite Hco, Hb.
    rewrite bool_decide_eq_true_2 by reflexivity. eauto.
  - cbn [app length]. simpl (Z.of_nat 3 <? _). eauto.
Qed.

(** X15.  The replica set computed from an owner: the owner comes first, no
    address appears twice and there are at most [K_REPLICATION]
    members; with the successor pointers of the peers fixed, four
    rounds of the walk always suffice. *)
Theorem replicas_from_owner_shape
    (fuel : nat) (gs : string -> option NodeRef) (owner : NodeRef) :
  (forall l, replicas_from_owner fuel gs owner = Some l ->
     (exists rest, l = owner :: rest) /\ NoDup (addr <$> l) /\
     (length l <= 3)%nat) /\
  ((4 <= fuel)%nat ->
   is_Some (replicas_from_owner fuel gs owner) /\
   replicas_from_owner fuel gs owner = replicas_from_owner 4 gs owner).
Proof.
  split.
  - intros l H. unfold replicas_from_owner in H.
    apply (replica_walk_shape fuel gs owner [owner] owner l); try exact H.
    + exists []. reflexivity.
    + simpl. apply NoDup_singleton.
    + simpl. lia.
  - intros Hf. unfold replicas_from_owner.
    destruct (replica_walk_four gs owner) as [l Hl].
    assert (H : forall k, replica_walk (4 + k) gs [owner] owner = Some l).
    { induction k as [|k IHk]; [exact Hl|].
      replace (4 + S k)%nat with (S (4 + k)) by lia.
      now apply replica_walk_more_fuel. }
    replace fuel with (4 + (fuel - 4))%nat by lia.
    rewrite H, Hl. split; [eauto | reflexivity].
Qed.

Lemma replicas_from_owner_shape_witness :
  is_Some (replicas_from_owner 6
             (fun a => if bool_decide (a = addr Examples.node_a)
                       then Some Examples.node_b else Some Examples.node_a)
             Examples.node_a).
Proof.
  apply replicas_from_owner_shape. lia.
Defined.

(** Two nodes that point at each other give a replica set of two. *)
Example replicas_from_owner_two_nodes :
  replicas_from_owner 4
    (fun a => if bool_decide (a = addr Examples.node_a)
              then Some Examples.node_b else Some Examples.node_a)
    Examples.node_a
  = Some [Examples.node_a; Examples.node_b].
Proof. vm_compute. reflexivity. Qed.

(** ** chord_node.py: ring maintenance *)

Lemma in_interval_open_no_return (n p s : Z) :
  Util.in_interval n p s false = true ->
  Util.in_interval p n s false = false.
Proof.
  unfold Util.in_interval.
  destruct (Z.ltb_spec p s), (Z.gtb_spec p s), (Z.ltb_spec n s),
           (Z.gtb_spec n s), (Z.ltb_spec p n), (Z.gtb_spec n p),
           (Z.ltb_spec n p), (Z.gtb_spec p n), (Z.ltb_spec p s);
    simpl; try reflexivity; try discriminate; lia.
Qed.

(** X16.  [/notify] moves the predecessor one way only.  The sender is
    adopted when there is no predecessor or when it lies strictly
    between the predecessor and the node; a repeated notify changes
    nothing; and once [n] has replaced [p], a notify from [p] is
    ignored. *)
Theorem notify_moves_forward (st : RingState) (n : NodeRef) :
  notify (notify st n) n = notify st n /\
  (predecessor st = None -> predecessor (notify st n) = Some n) /\
  (forall p, predecessor st = Some p ->
     predecessor (notify st n)
     = if Util.in_interval (id n) (id p) (id (self st)) false
       then Some n else Some p) /\
  (forall p, predecessor st = Some p ->
     Util.in_interval (id n) (id p) (id (self st)) false = true ->
     notify (notify st n) p = notify st n) /\
  self (notify st n) = self st /\
  successor (notify st n) = successor st /\
  successor_list (notify st n) = successor_list st /\
  finger (notify st n) = finger st /\
  neighbors (notify st n) = neighbors st.
Proof.
  split; [|split; [|split; [|split]]].
  - unfold notify.
    destruct (predecessor st) as [p|] eqn:Hp.
    + destruct (Util.in_interval (id n) (id p) (id (self st)) false) eqn:Hin.
      * cbn -[Util.in_interval].
        now destruct (Util.in_interval (id n) (id n) (id (self st)) false).
      * now rewrite Hp, Hin.
    + cbn -[Util.in_interval].
      now destruct (Util.in_interval (id n) (id n) (id (self st)) false).
  - intros Hp. unfold notify. now rewrite Hp.
  - intros p Hp. unfold notify. rewrite Hp.
    destruct (Util.in_interval (id n) (id p) (id (self st)) false);
      [reflexivity | exact Hp].
  - intros p Hp Hin. unfold notify at 2 3. rewrite Hp, Hin.
    unfold notify. cbn -[Util.in_interval].
    now rewrite (in_interval_open_no_return _ _ _ Hin).
  - unfold notify.
    destruct (predecessor st) as [p|];
      [destruct (Util.in_interval (id n) (id p) (id (self st)) false)|];
      repeat split.
Qed.

Lemma notify_moves_forward_witness :
  notify
    (notify {| self := {| id := 100; addr := "c" |};
               predecessor := Some {| id := 10; addr := "a" |};
               successor := {| id := 100; addr := "c" |};
               successor_list := []; finger := []; neighbors := ∅ |}
            {| id := 50; addr := "b" |})
    {| id := 10; addr := "a" |}
  = notify {| self := {| id := 100; addr := "c" |};
              predecessor := Some {| id := 10; addr := "a" |};
              successor := {| id := 100; addr := "c" |};
              successor_list := []; finger := []; neighbors := ∅ |}
           {| id := 50; addr := "b" |}.
Proof.
  destruct (notify_moves_forward
              {| self := {| id := 100; addr := "c" |};
                 predecessor := Some {| id := 10; addr := "a" |};
                 successor := {| id := 100; addr := "c" |};
                 successor_list := []; finger := []; neighbors := ∅ |}
              {| id := 50; addr := "b" |}) as (_ & _ & _ & H & _).
  apply H; reflexivity.
Defined.

Lemma first_answering_spec ping (l : list NodeRef) :
  match first_answering ping l with
  | Some n =>
      exists l1 l2, l = l1 ++ n :: l2 /\ ping (addr n) = true /\
                    forall x, x ∈ l1 -> ping (addr x) = false
  | None => forall x, x ∈ l -> ping (addr x) = false
  end.
Proof.
  induction l as [|x l IH]; simpl.
  - intros x Hx. now apply elem_of_nil in Hx.
  - destruct (ping (addr x)) eqn:Hx.
    + exists [], l. split; [reflexivity|]. split; [exact Hx|].
      intros y Hy. now apply elem_of_nil in Hy.
    + destruct (first_answering ping l) as [n|].
      * destruct IH as (l1 & l2 & -> & Hn & Hl1).
        exists (x :: l1), l2. split; [reflexivity|]. split; [exact Hn|].
        intros y Hy. apply elem_of_cons in Hy as [->|Hy]; auto.
      * intros y Hy. apply elem_of_cons in Hy as [->|Hy]; auto.
Qed.

(** X17.  After a heartbeat round the pointers are live or gone: the
    successor is the node itself or a node that answered the ping, the
    predecessor is absent or answered.  A successor that answers is
    kept with its list; otherwise the first answering entry behind the
    head of the successor list takes over, and with none the node
    falls back to itself as its whole ring. *)
Theorem heartbeat_keeps_live_pointers (ping : string -> bool)
                                      (st : RingState) :
  (addr (successor (heartbeat ping st)) = addr (self st) \/
   ping (addr (successor (heartbeat ping st))) = true) /\
  (forall p, predecessor (heartbeat ping st) = Some p ->
             predecessor st = Some p /\ ping (addr p) = true) /\
  (addr (successor st) = addr (self st) \/ ping (addr (successor st)) = true ->
   successor (heartbeat ping st) = successor st /\
   successor_list (heartbeat ping st) = successor_list st) /\
  (addr (successor st) <> addr (self st) ->
   ping (addr (successor st)) = false ->
   match first_answering ping (drop 1 (successor_list st)) with
   | Some n =>
       successor (heartbeat ping st) = n /\
       successor_list (heartbeat ping st) = successor_list st
   | None =>
       successor (heartbeat ping st) = self st /\
       successor_list (heartbeat ping st) = [self st]
   end) /\
  self (heartbeat ping st) = self st /\
  finger (heartbeat ping st) = finger st /\
  neighbors (heartbeat ping st) = neighbors st.
Proof.
  assert (Hcp : forall s : RingState,
            successor (check_predecessor ping s) = successor s /\
            successor_list (check_predecessor ping s) = successor_list s /\
            self (check_predecessor ping s) = self s /\
            finger (check_predecessor ping s) = finger s /\
            neighbors (check_predecessor ping s) = neighbors s /\
            forall p, predecessor (check_predecessor ping s) = Some p ->
                      predecessor s = Some p /\ ping (addr p) = true).
  { intros s. unfold check_predecessor.
    destruct (predecessor s) as [p|] eqn:Hp.
    - destruct (ping (addr p)) eqn:Hping; simpl;
        (do 5 (split; [reflexivity|])); intros p' Hp'.
      + rewrite Hp in Hp'. inversion Hp'; subst. auto.
      + discriminate.
    - (do 5 (split; [reflexivity|])). intros p' Hp'. congruence. }
  assert (Hcs : predecessor (check_successor ping st) = predecessor st /\
                self (check_successor ping st) = self st /\
                finger (check_successor ping st) = finger st /\
                neighbors (check_successor ping st) = neighbors st).
  { unfold check_successor.
    destruct (bool_decide _); [auto|]. destruct (ping _); [auto|].
    destruct (first_answering _ _); simpl; auto. }
  unfold heartbeat.
  destruct (Hcp (check_successor ping st)) as (Hs & Hl & Hself & Hf & Hn & Hp).
  destruct Hcs as (Hp' & Hself' & Hf' & Hn').
  rewrite Hs, Hl, Hself, Hf, Hn, Hself', Hf', Hn'.
  split; [|split; [|split; [|split; [|auto]]]].
  - unfold check_successor. case_bool_decide as Ha; [now left|].
    destruct (ping (addr (successor st))) eqn:Hping; [now right|].
    pose proof (first_answering_spec ping (drop 1 (successor_list st))) as Hfa.
    destruct (first_answering ping (drop 1 (successor_list st))) as [n|];
      simpl.
    + destruct Hfa as (_ & _ & _ & Hlive & _). now right.
    + now left.
  - intros p Hpp. apply Hp in Hpp as [Hpp Hping].
    rewrite Hp' in Hpp. auto.
  - intros Hlive. unfold check_successor.
    case_bool_decide as Ha; [auto|].
    destruct Hlive as [Hlive|Hlive]; [contradiction|].
    rewrite Hlive. auto.
  - intros Ha Hdead. unfold check_successor.
    rewrite bool_decide_eq_false_2 by exact Ha. rewrite Hdead.
    destruct (first_answering ping (drop 1 (successor_list st))); simpl; auto.
Qed.

Lemma heartbeat_keeps_live_pointers_witness :
  successor
    (heartbeat (fun a => bool_decide (a = "c"))
       {| self := {| id := 1; addr := "a" |}; predecessor := None;
          successor := {| id := 2; addr := "b" |};
          successor_list := [{| id := 2; addr := "b" |};
                             {| id := 3; addr := "c" |}];
          finger := []; neighbors := ∅ |})
  = successor {| self := {| id := 1; addr := "a" |}; predecessor := None;
                 successor := {| id := 3; addr := "c" |};
                 successor_list := []; finger := []; neighbors := ∅ |}.
Proof.
  destruct (heartbeat_keeps_live_pointers (fun a => bool_decide (a = "c"))
              {| self := {| id := 1; addr := "a" |}; predecessor := None;
                 successor := {| id := 2; addr := "b" |};
                 successor_list := [{| id := 2; addr := "b" |};
                                    {| id := 3; addr := "c" |}];
                 finger := []; neighbors := ∅ |}) as (_ & _ & _ & H & _).
  apply H; [discriminate | reflexivity].
Defined.






End RingFacts.

(** ** metrics.py: the recorders *)
Section MetricsOpsFacts.
Import Metrics MetricsOps Tally.

Variable float : Type.
Variable fadd : float -> float -> float.
Variable fzero : float.

Lemma record_run_counts (calls : list (record_call float)) :
  forall m : Metrics float,
  total_puts (foldl (record float fadd) m calls)
  = total_puts m + count (is_put float) calls /\
  total_gets (foldl (record float fadd) m calls)
  = total_gets m + count (is_get float) calls /\
  total_get_hits (foldl (record float fadd) m calls)
  = total_get_hits m + count (is_hit float) calls /\
  total_get_hits (foldl (record float fadd) m calls)
  + total_get_misses (foldl (record float fadd) m calls)
  - total_gets (foldl (record float fadd) m calls)
  = total_get_hits m + total_get_misses m - total_gets m /\
  total_chord_lookups (foldl (record float fadd) m calls)
  = total_chord_lookups m + count (is_lookup float) calls /\
  sum_chord_hops (foldl (record float fadd) m calls)
  = sum_chord_hops m + total (lookup_hops float) calls /\
  node_addr (foldl (record float fadd) m calls) = node_addr m /\
  start_time (foldl (record float fadd) m calls) = start_time m.
Proof.
  unfold count, total.
  induction calls as [|c calls IH]; intros m.
  - simpl. repeat split; lia.
  - cbn [foldl]. destruct (IH (record float fadd m c))
      as (H1 & H2 & H3 & H4 & H5 & H6 & H7 & H8).
    rewrite H1, H2, H3, H5, H6, H7, H8.
    destruct c as [l|l [|]|hops|fwd]; cbn [record record_put record_get
      record_chord_lookup record_gnutella_query total_puts total_gets
      total_get_hits total_get_misses total_chord_lookups sum_chord_hops
      node_addr start_time List.filter is_put is_get is_hit is_lookup
      lookup_hops foldr length] in *;
      repeat split; lia.
Qed.

(** X19.  From a fresh [Metrics], whatever is recorded: every counter is the
    number of calls of its recorder, hits and misses add up to the
    gets, and the hop sum is the sum of the recorded hops. *)
Theorem metrics_counters_tally (addr : string) (now : float)
                               (calls : list (record_call float)) :
  total_puts (foldl (record float fadd) (new float fzero addr now) calls)
  = count (is_put float) calls /\
  total_gets (foldl (record float fadd) (new float fzero addr now) calls)
  = count (is_get float) calls /\
  total_get_hits (foldl (record float fadd) (new float fzero addr now) calls)
  = count (is_hit float) calls /\
  total_get_hits (foldl (record float fadd) (new float fzero addr now) calls)
  + total_get_misses
      (foldl (record float fadd) (new float fzero addr now) calls)
  = total_gets (foldl (record float fadd) (new float fzero addr now) calls) /\
  total_chord_lookups
    (foldl (record float fadd) (new float fzero addr now) calls)
  = count (is_lookup float) calls /\
  sum_chord_hops (foldl (record float fadd) (new float fzero addr now) calls)
  = total (lookup_hops float) calls /\
  node_addr (foldl (record float fadd) (new float fzero addr now) calls)
  = addr /\
  start_time (foldl (record float fadd) (new float fzero addr now) calls)
  = now.
Proof.
  destruct (record_run_counts calls (new float fzero addr now))
    as (H1 & H2 & H3 & H4 & H5 & H6 & H7 & H8).
  cbn [new total_puts total_gets total_get_hits total_get_misses
       total_chord_lookups sum_chord_hops node_addr start_time] in *.
  repeat split; try assumption; lia.
Qed.

End MetricsOpsFacts.

(** ** chord_node.py: read-repair *)
Section ReadRepairFacts.
Import Str KV Election Chord.

Variable replica_get : string -> string -> option replica_get_resp.
Variable key : string.

Lemma read_step_vals (st : read_state) (r : NodeRef) (a : string) :
  per_replica_vals (read_step replica_get key st r) !! a
  = if bool_decide (a = addr r)
    then Some (found_entry (replica_get (addr r) key))
    else per_replica_vals st !! a.
Proof.
  unfold read_step.
  destruct (replica_get (addr r) key) as [[|v ts w]|]; simpl;
    try destruct (is_none _ || _ || _); simpl;
    case_bool_decide as Ha; subst;
    rewrite ?lookup_insert_eq, ?lookup_insert_ne by congruence; reflexivity.
Qed.

Lemma read_fold_vals (qs : list NodeRef) : forall (st : read_state) a,
  per_replica_vals st !! a = Some (found_entry (replica_get a key)) \/
  a ∈ addr <$> qs ->
  per_replica_vals (foldl (read_step replica_get key) st qs) !! a
  = Some (found_entry (replica_get a key)).
Proof.
  induction qs as [|r qs IH]; intros st a H; simpl.
  - destruct H as [H|H]; [exact H | now apply elem_of_nil in H].
  - apply IH. rewrite read_step_vals.
    case_bool_decide as Ha; [subst; now left|].
    destruct H as [H|H]; [now left|].
    rewrite fmap_cons in H. apply elem_of_cons in H as [H|H];
      [contradiction | now right].
Qed.

Lemma query_order_covers (replicas : list NodeRef) leader (r : NodeRef) :
  r ∈ replicas -> addr r ∈ addr <$> query_order replicas leader.
Proof.
  intros Hr. unfold query_order.
  destruct (match leader with
            | Some l => List.find (fun r => id r =? l) replicas
            | None => None
            end) as [ln|].
  - rewrite fmap_cons.
    destruct (decide (addr r = addr ln)) as [->|Hne]; [left|].
    right. apply list_elem_of_fmap. exists r. split; [reflexivity|].
    apply list_elem_of_In, List.filter_In. split; [now apply list_elem_of_In|].
    now rewrite bool_decide_eq_false_2.
  - apply list_elem_of_fmap. eauto.
Qed.

End ReadRepairFacts.

Section HandleGetRepairFacts.
Import Str KV Election Chord.

(** X20.  Read-repair.  On a miss nothing is sent.  On a hit the version
    returned is sent, in replica order, to exactly the replicas that
    reported nothing or a strictly older version; and a replica that
    held nothing or something older holds the version sent once it has
    processed the [/replica_put]. *)
Theorem handle_get_read_repair
    (self : string) (ping : string -> bool)
    (replica_get : string -> string -> option replica_get_resp)
    (m : ElectionManager) (key : string) (replicas : list NodeRef) :
  match snd (fst (handle_get self ping replica_get m key replicas)) with
  | None => snd (handle_get self ping replica_get m key replicas) = []
  | Some best =>
      snd (handle_get self ping replica_get m key replicas)
      = flat_map
          (fun r =>
             let msg := (addr r,
                         {| p_key := key; p_value := fst (fst best);
                            p_ts := snd (fst best);
                            p_writer_id := snd best |}) in
             match found_entry (replica_get (addr r) key) with
             | None => [msg]
             | Some old => if entry_better old best then [msg] else []
             end)
          replicas /\
      forall rn : Node,
        match kv rn !! key with
        | None => True
        | Some old => entry_better old best = true
        end ->
        kv (replica_put rn key (fst (fst best)) (snd (fst best)) (snd best))
          !! key = Some best
  end.
Proof.
  unfold handle_get.
  destruct (ensure_replica_leader self ping m key replicas) as [m1 l].
  set (st := foldl (read_step replica_get key) read_init
                   (query_order replicas l)).
  assert (Hvals : forall r, r ∈ replicas ->
            per_replica_vals st !! addr r
            = Some (found_entry (replica_get (addr r) key))).
  { intros r Hr. unfold st. apply read_fold_vals. right.
    now apply query_order_covers. }
  destruct (found_any st); cbn [negb fst snd]; [|reflexivity].
  split.
  - unfold repairs. clearbody st.
    induction replicas as [|r rs IH]; [reflexivity|].
    cbn [flat_map]. rewrite IH by (intros r' Hr'; apply Hvals; now right).
    f_equal. rewrite (Hvals r) by left.
    destruct (found_entry (replica_get (addr r) key)) as [[[vo tso] wo]|];
      [|reflexivity].
    rewrite better_orb. reflexivity.
  - intros rn Hold. rewrite replica_put_lookup, put_lookup.
    destruct (kv rn !! key) as [old|]; [|reflexivity].
    rewrite lww_merge_some. now rewrite Hold.
Qed.

(** A read that finds one stale replica and one that misses the key
    repairs both and leaves the up-to-date one alone. *)
Example handle_get_repairs_stale_and_missing :
  snd (handle_get "10.0.0.1:5000" Examples.ping_all
         (fun a _ =>
            if bool_decide (a = "10.0.0.1:5000")
            then Some (Found (PStr "new") 7 "w")
            else if bool_decide (a = "10.0.0.2:5000")
                 then Some (Found (PStr "old") 3 "w")
                 else Some NotFound)
         (Election.new 1) "k"
         [Examples.node_a; Examples.node_b;
          {| id := 3; addr := "10.0.0.3:5000" |}])
  = [("10.0.0.2:5000",
      {| p_key := "k"; p_value := PStr "new"; p_ts := 7;
         p_writer_id := "w" |});
     ("10.0.0.3:5000",
      {| p_key := "k"; p_value := PStr "new"; p_ts := 7;
         p_writer_id := "w" |})].
Proof. vm_compute. reflexivity. Qed.

End HandleGetRepairFacts.

(** ** gnutella.py: what a flood answers *)
Section FloodAnswerFacts.
Import Chord Gnutella Tally.

Lemma omap_cons_match {A B : Type} (f : A -> option B) x (l : list A) :
  omap f (x :: l)
  = match f x with Some y => y :: omap f l | None => omap f l end.
Proof. reflexivity. Qed.

Lemma forward_loop_answer post q origin nbs : forall acc trace,
  matches (fst (forward_loop post q origin nbs acc trace))
  = matches acc
    ++ concat (matches <$> omap (fun nb => post nb q)
                             (filter (fun nb => nb <> origin) nbs)) /\
  forwarded (fst (forward_loop post q origin nbs acc trace))
  = forwarded acc
    + total (fun r => 1 + forwarded r)
        (omap (fun nb => post nb q) (filter (fun nb => nb <> origin) nbs)).
Proof.
  unfold total.
  induction nbs as [|nb rest IH]; intros acc trace.
  - cbn. rewrite app_nil_r. split; [reflexivity | lia].
  - cbn [forward_loop]. rewrite filter_cons. case_bool_decide as Hnb.
    + subst nb. rewrite decide_False by (intros H; now apply H). apply IH.
    + rewrite decide_True by exact Hnb. rewrite omap_cons_match.
      destruct (post nb q) as [resp|].
      * destruct (IH {| matches := matches acc ++ matches resp;
                        forwarded := forwarded acc + (1 + forwarded resp) |}
                     (trace ++ [Post nb q])) as [-> ->].
        cbn -[Z.add filter]. rewrite <- app_assoc.
        split; [reflexivity | lia].
      * apply IH.
Qed.

Lemma flood_loop_answer post q nbs : forall acc trace,
  matches (fst (flood_loop post q nbs acc trace))
  = matches acc ++ concat (matches <$> omap (fun nb => post nb q) nbs) /\
  forwarded (fst (flood_loop post q nbs acc trace))
  = forwarded acc
    + total (fun r => 1 + forwarded r) (omap (fun nb => post nb q) nbs) /\
  snd (flood_loop post q nbs acc trace)
  = trace ++ ((fun nb => Post nb q) <$> nbs).
Proof.
  unfold total.
  induction nbs as [|nb rest IH]; intros acc trace.
  - cbn. rewrite !app_nil_r. repeat split; lia.
  - cbn [flood_loop]. rewrite omap_cons_match, fmap_cons.
    destruct (post nb q) as [resp|].
    + destruct (IH {| matches := matches acc ++ matches resp;
                      forwarded := forwarded acc + (1 + forwarded resp) |}
                   (trace ++ [Post nb q])) as (-> & -> & ->).
      cbn -[Z.add]. rewrite <- !app_assoc. repeat split; lia.
    + destruct (IH acc (trace ++ [Post nb q])) as (-> & -> & ->).
      rewrite <- app_assoc. repeat split.
Qed.

(** X23.  The answer to a query received for the first time.  It starts with
    the node's own match when the node holds the key; with a TTL that
    is spent nothing more is added; otherwise the matches of the
    neighbours that answered follow in order, and the forward count is
    one per such neighbour plus what each reported.  Neighbours that
    did not answer add nothing. *)
Theorem g_query_received_answer
    (post : string -> g_query -> option g_result) (n : Node)
    (msg_id key : string) (ttl : Z) (origin : string) :
  msg_id ∉ g_seen n ->
  (ttl <= 0 ->
   snd (fst (g_query_received post n msg_id key ttl origin))
   = {| matches := if _have_key n key then [(node_addr n, key)] else [];
        forwarded := 0 |}) /\
  (0 < ttl ->
   matches (snd (fst (g_query_received post n msg_id key ttl origin)))
   = (if _have_key n key then [(node_addr n, key)] else [])
     ++ concat
          (matches <$>
             omap (fun nb =>
                     post nb {| q_msg_id := msg_id; q_key := key;
                                q_ttl := ttl - 1;
                                q_origin := node_addr n |})
                  (filter (fun nb => nb <> origin)
                          (elements (g_neighbors n)))) /\
   forwarded (snd (fst (g_query_received post n msg_id key ttl origin)))
   = total (fun r => 1 + forwarded r)
       (omap (fun nb =>
                post nb {| q_msg_id := msg_id; q_key := key;
                           q_ttl := ttl - 1; q_origin := node_addr n |})
             (filter (fun nb => nb <> origin) (elements (g_neighbors n))))).
Proof.
  intros Hnew. unfold g_query_received.
  rewrite bool_decide_eq_false_2 by exact Hnew.
  change (_have_key (mark_seen n msg_id) key) with (_have_key n key).
  cbn [mark_seen node_addr g_neighbors].
  destruct (Z.leb_spec ttl 0) as [Hle|Hgt].
  - split; [reflexivity | lia].
  - split; [lia|]. intros _.
    match goal with
    | |- context [forward_loop ?p ?q ?o ?nbs ?acc ?tr] =>
        destruct (forward_loop_answer p q o nbs acc tr) as [Hm Hf];
        destruct (forward_loop p q o nbs acc tr) as [res trace]
    end.
    cbn [fst snd matches forwarded] in *. rewrite Hm, Hf.
    split; [reflexivity | lia].
Qed.

Lemma g_query_received_answer_witness :
  snd (fst (g_query_received Examples.post_none Examples.flood_node
              "m2" "k" 0 "10.0.0.3:5000"))
  = {| matches := if _have_key Examples.flood_node "k"
                  then [(node_addr Examples.flood_node, "k")] else [];
       forwarded := 0 |}.
Proof.
  apply g_query_received_answer.
  - simpl. intros H. apply elem_of_singleton in H. discriminate.
  - lia.
Defined.

(** X24.  A flood started at a node.  The minted id enters the seen set; with
    a positive TTL the query is posted once to every neighbour, with
    the TTL decremented and the node as origin, and with a spent TTL to
    none; the answer adds up as for a received query. *)
Theorem g_handle_query_floods
    (post : string -> g_query -> option g_result) (n : Node)
    (msg_id key : string) (ttl : Z) :
  fst (fst (g_handle_query post n msg_id key ttl)) = mark_seen n msg_id /\
  (ttl <= 0 ->
   snd (g_handle_query post n msg_id key ttl) = [MarkSeen msg_id] /\
   snd (fst (g_handle_query post n msg_id key ttl))
   = {| matches := if _have_key n key then [(node_addr n, key)] else [];
        forwarded := 0 |}) /\
  (0 < ttl ->
   snd (g_handle_query post n msg_id key ttl)
   = MarkSeen msg_id
     :: ((fun nb => Post nb {| q_msg_id := msg_id; q_key := key;
                               q_ttl := ttl - 1;
                               q_origin := node_addr n |})
           <$> elements (g_neighbors n)) /\
   matches (snd (fst (g_handle_query post n msg_id key ttl)))
   = (if _have_key n key then [(node_addr n, key)] else [])
     ++ concat
          (matches <$>
             omap (fun nb =>
                     post nb {| q_msg_id := msg_id; q_key := key;
                                q_ttl := ttl - 1;
                                q_origin := node_addr n |})
                  (elements (g_neighbors n))) /\
   forwarded (snd (fst (g_handle_query post n msg_id key ttl)))
   = total (fun r => 1 + forwarded r)
       (omap (fun nb =>
                post nb {| q_msg_id := msg_id; q_key := key;
                           q_ttl := ttl - 1; q_origin := node_addr n |})
             (elements (g_neighbors n)))).
Proof.
  unfold g_handle_query.
  change (_have_key (mark_seen n msg_id) key) with (_have_key n key).
  cbn [mark_seen node_addr g_neighbors].
  destruct (Z.leb_spec ttl 0) as [Hle|Hgt].
  - split; [reflexivity|]. split; [auto | lia].
  - match goal with
    | |- context [flood_loop ?p ?q ?nbs ?acc ?tr] =>
        destruct (flood_loop_answer p q nbs acc tr) as (Hm & Hf & Ht);
        destruct (flood_loop p q nbs acc tr) as [res trace]
    end.
    cbn [fst snd matches forwarded] in *.
    split; [reflexivity|]. split; [lia|]. intros _.
    rewrite Hm, Hf, Ht. split; [reflexivity|].
    split; [reflexivity | lia].
Qed.

Lemma g_handle_query_floods_witness :
  snd (g_handle_query Examples.post_none Examples.flood_node "m9" "k" 0)
  = [MarkSeen "m9"].
Proof.
  apply g_handle_query_floods. lia.
Defined.

End FloodAnswerFacts.

(** ** chord_node.py: the read path on concrete replicas *)
Section HandleGetExamples.
Import KV Chord.

Lemma handle_get_miss_witness :
  snd (fst (handle_get (addr Examples.node_a) Examples.ping_all
              (fun _ _ => Some NotFound) (Election.new 1) "k"
              Examples.replicas_ab))
  = None.
Proof.
  destruct (handle_get_miss (addr Examples.node_a) Examples.ping_all
              (fun _ _ => Some NotFound) (Election.new 1) "k"
              Examples.replicas_ab) as [H _].
  - reflexivity.
  - exact H.
Defined.

Lemma handle_get_lww_max_witness :
  match snd (fst (handle_get (addr Examples.node_a) Examples.ping_all
                    MoreExamples.stale_at_a (Election.new 1) "k"
                    Examples.replicas_ab)) with
  | None =>
      found_entries MoreExamples.stale_at_a "k"
        (query_order Examples.replicas_ab
           (snd (ensure_replica_leader (addr Examples.node_a)
                   Examples.ping_all (Election.new 1) "k"
                   Examples.replicas_ab))) = []
  | Some e =>
      e ∈ found_entries MoreExamples.stale_at_a "k"
            (query_order Examples.replicas_ab
               (snd (ensure_replica_leader (addr Examples.node_a)
                       Examples.ping_all (Election.new 1) "k"
                       Examples.replicas_ab))) /\
      forall x,
        x ∈ found_entries MoreExamples.stale_at_a "k"
              (query_order Examples.replicas_ab
                 (snd (ensure_replica_leader (addr Examples.node_a)
                         Examples.ping_all (Election.new 1) "k"
                         Examples.replicas_ab))) ->
        ~ version_gt (ver x) (ver e)
  end.
Proof.
  apply handle_get_lww_max.
  intros r v ts w _ H. unfold MoreExamples.stale_at_a in H.
  destruct (bool_decide _); inversion H; discriminate.
Defined.

(** On those replicas the read returns the newer version. *)
Example handle_get_returns_newer :
  snd (fst (handle_get (addr Examples.node_a) Examples.ping_all
              MoreExamples.stale_at_a (Election.new 1) "k"
              Examples.replicas_ab))
  = Some (PStr "y", 5, "a").
Proof. vm_compute. reflexivity. Qed.

End HandleGetExamples.
